(** * BitBoxApp Qt front end: navigation policy, backend callbacks, teardown

    A shallow embedding of [frontends/qt/main.cpp]:
    - [QRegularExpression], [Policy]: [RequestInterceptor::interceptRequest]
      and the regular expression that recognises the onramp page;
    - [Qt]: the process-wide globals ([view], [pageLoaded], [webClass],
      [webClassMutex], [trayIcon], ...) as a state record, the QObject heap
      with its parent/child ownership, and the statements of [main] and of
      its lambdas as programs over a small set of atomic actions;
    - [App]: the lambdas themselves (backend callbacks, signal handlers,
      the [aboutToQuit] handler) and the relevant skeleton of [main];
    - [Threads]: the same programs, one per thread, with their atomic
      actions interleaved by a schedule.

    The modules named [...Facts] hold the properties. *)

From Stdlib Require Import String Ascii List Bool ZArith Lia.
Import ListNotations.
Local Open Scope string_scope.
Local Open Scope list_scope.

(** ** QString::contains(QRegularExpression)

  Only the constructs that occur in the pattern of [main.cpp] are
  modelled: the anchors [^] and [$], the group [.*] and literal
  characters.  No pattern option is set in the source, so [^] matches at
  offset 0 only, [.] matches every character but a line feed, and [$]
  matches at the very end of the subject or just before a final line
  feed. *)
Module QRegularExpression.

Inductive token : Type :=
| Caret
| Dollar
| DotStar
| Literal (c : ascii).

Fixpoint compile (pattern : string) : list token :=
  match pattern with
  | EmptyString => []
  | String "^" p => Caret :: compile p
  | String "$" p => Dollar :: compile p
  | String "." (String "*" p) => DotStar :: compile p
  | String c p => Literal c :: compile p
  end.

Definition line_feed : ascii := ascii_of_nat 10.

Definition at_subject_end (s : string) : bool :=
  match s with
  | EmptyString => true
  | String c EmptyString => Ascii.eqb c line_feed
  | _ => false
  end.

(** [match_here re first s]: does [re] match a prefix of the remaining
    subject [s]?  [first] says whether the position is offset 0. *)
Fixpoint match_here (re : list token) (first : bool) (s : string)
  {struct re} : bool :=
  match re with
  | [] => true
  | Caret :: re' => first && match_here re' first s
  | Dollar :: re' => at_subject_end s && match_here re' first s
  | Literal c :: re' =>
      match s with
      | String d s' => Ascii.eqb c d && match_here re' false s'
      | EmptyString => false
      end
  | DotStar :: re' =>
      (fix star (first : bool) (s : string) {struct s} : bool :=
         match_here re' first s
         || match s with
            | String d s' => negb (Ascii.eqb d line_feed) && star false s'
            | EmptyString => false
            end) first s
  end.

(** The match may start at any offset of the subject. *)
Fixpoint search (re : list token) (first : bool) (s : string) : bool :=
  match_here re first s
  || match s with
     | String _ s' => search re false s'
     | EmptyString => false
     end.

Definition contains (subject pattern : string) : bool :=
  search (compile pattern) true subject.

(** No line feed, except possibly as the last character. *)
Fixpoint one_line (s : string) : bool :=
  match s with
  | EmptyString => true
  | String c s' =>
      if Ascii.eqb c line_feed
      then match s' with EmptyString => true | _ => false end
      else one_line s'
  end.

Fixpoint drop_prefix (p s : string) : option string :=
  match p, s with
  | EmptyString, _ => Some s
  | String c p', String d s' =>
      if Ascii.eqb c d then drop_prefix p' s' else None
  | String _ _, EmptyString => None
  end.

Definition literals (p : string) : list token :=
  map Literal (list_ascii_of_string p).

End QRegularExpression.

(** ** RequestInterceptor *)
Module Policy.

(** A [QUrl] is used through [scheme()] and [toString()] only. *)
Record QUrl : Type := mkQUrl {
  scheme : string;
  toString : string
}.

(** [QWebEngineUrlRequestInfo]: the two URLs the interceptor reads and
    the flag that [info.block(true)] sets. *)
Record QWebEngineUrlRequestInfo : Type := mkInfo {
  requestUrl : QUrl;
  firstPartyUrl : QUrl;
  blocked : bool
}.

Definition block (b : bool) (info : QWebEngineUrlRequestInfo)
  : QWebEngineUrlRequestInfo :=
  mkInfo (requestUrl info) (firstPartyUrl info) b.

(** What the interceptor does besides writing into [info]. *)
Inductive side_effect : Type :=
| systemOpen (url : string)
| cerr (line : string).

Definition onBuyPage (currentUrl : string) : bool :=
  QRegularExpression.contains currentUrl "^qrc:/buy/.*$".

(** [interceptRequest]; [QT_BITBOX_ALLOW_EXTERNAL_URLS] tells whether the
    build defines the macro of that name, [currentUrl] is
    [mainPage->requestedUrl().toString()]. *)
Definition interceptRequest (QT_BITBOX_ALLOW_EXTERNAL_URLS : bool)
    (currentUrl : string) (info : QWebEngineUrlRequestInfo)
  : QWebEngineUrlRequestInfo * list side_effect :=
  if QT_BITBOX_ALLOW_EXTERNAL_URLS then (info, [])
  else if String.eqb (scheme (requestUrl info)) "qrc"
          || String.eqb (scheme (requestUrl info)) "blob"
  then (info, [])
  else if onBuyPage currentUrl then
    if String.eqb (toString (firstPartyUrl info)) (toString (requestUrl info))
    then (block true info, [systemOpen (toString (requestUrl info))])
    else (info, [])
  else (block true info,
        [cerr ("Blocked: " ++ toString (requestUrl info))]).

(** The macro [QT_BITBOX_ALLOW_EXTERNAL_URLS] is defined nowhere in
    [main.cpp]: a plain build enforces the policy. *)
Definition enforcing : bool := false.

(** The three verdicts of the policy, read off a finished interception:
    a request that is not blocked proceeds; a blocked one was either
    handed to the system browser or only reported. *)
Inductive decision : Type :=
| Allow
| Block
| BlockAndOpenExternally.

Definition is_systemOpen (e : side_effect) : bool :=
  match e with systemOpen _ => true | cerr _ => false end.

Definition is_cerr (e : side_effect) : bool :=
  match e with cerr _ => true | systemOpen _ => false end.

(** Qt hands the interceptor a request that is not blocked yet. *)
Definition incoming (requested firstParty : QUrl)
  : QWebEngineUrlRequestInfo :=
  mkInfo requested firstParty false.

Definition local_scheme (requested : QUrl) : bool :=
  String.eqb (scheme requested) "qrc" || String.eqb (scheme requested) "blob".

Definition decide (QT_BITBOX_ALLOW_EXTERNAL_URLS : bool)
    (currentUrl : string) (requested firstParty : QUrl) : decision :=
  let (info', effects) :=
    interceptRequest QT_BITBOX_ALLOW_EXTERNAL_URLS currentUrl
      (incoming requested firstParty) in
  if negb (blocked info') then Allow
  else if existsb is_systemOpen effects then BlockAndOpenExternally
  else Block.

Definition side_effects (QT_BITBOX_ALLOW_EXTERNAL_URLS : bool)
    (currentUrl : string) (requested firstParty : QUrl)
  : list side_effect :=
  snd (interceptRequest QT_BITBOX_ALLOW_EXTERNAL_URLS currentUrl
         (incoming requested firstParty)).

End Policy.

(** ** Globals, QObject heap, atomic actions and programs *)
Module Qt.

(** The QObjects that [main] creates, named after the variable that
    first holds them.  [a], the application object, lives on the stack
    of [main]; every other one is allocated with [new]. *)
Inductive qobject : Type :=
| obj_a
| obj_view
| obj_externalPage
| obj_mainPage
| obj_webClass
| obj_quitAction
| obj_trayIconMenu
| obj_trayIcon.

Definition qobject_eqb (x y : qobject) : bool :=
  match x, y with
  | obj_a, obj_a
  | obj_view, obj_view
  | obj_externalPage, obj_externalPage
  | obj_mainPage, obj_mainPage
  | obj_webClass, obj_webClass
  | obj_quitAction, obj_quitAction
  | obj_trayIconMenu, obj_trayIconMenu
  | obj_trayIcon, obj_trayIcon => true
  | _, _ => false
  end.

(** A pointer is null ([None]) or the address of an object, which may
    have been destroyed since. *)
Definition pointer : Type := option qobject.

(** The live QObjects, each with its Qt parent. *)
Definition heap : Type := list (qobject * pointer).

Definition alive (h : heap) (o : qobject) : bool :=
  existsb (fun e => qobject_eqb (fst e) o) h.

Fixpoint parent_of (h : heap) (o : qobject) : pointer :=
  match h with
  | [] => None
  | (o', p) :: h' => if qobject_eqb o' o then p else parent_of h' o
  end.

(** [under n h root o]: [o] is [root] or has it among its first [n]
    ancestors. *)
Fixpoint under (n : nat) (h : heap) (root o : qobject) : bool :=
  qobject_eqb o root
  || match n with
     | O => false
     | S n' =>
         match parent_of h o with
         | Some p => under n' h root p
         | None => false
         end
     end.

(** [delete root]: the destructor of a QObject destroys its children. *)
Definition destroy (h : heap) (root : qobject) : heap :=
  filter (fun e => negb (under (length h) h root (fst e))) h.

(** The file-scope variables of [main.cpp], the QObject heap, and the
    URL [mainPage->requestedUrl()]. *)
Record state : Type := mkState {
  view : pointer;
  mainPage : pointer;
  externalPage : pointer;
  pageLoaded : bool;
  webClass : pointer;
  webClassMutex : bool;          (* true: locked *)
  trayIcon : pointer;
  objects : heap;
  requestedUrl : string
}.

(** Static storage is zero-initialised; [pageLoaded] has its
    initialiser. *)
Definition static_init : state :=
  mkState None None None false None false None [(obj_a, None)] "".

Module Var.
Inductive t : Type := view | mainPage | externalPage | webClass | trayIcon.
End Var.

Definition load (x : Var.t) (st : state) : pointer :=
  match x with
  | Var.view => view st
  | Var.mainPage => mainPage st
  | Var.externalPage => externalPage st
  | Var.webClass => webClass st
  | Var.trayIcon => trayIcon st
  end.

Definition store (x : Var.t) (p : pointer) (st : state) : state :=
  match x with
  | Var.view =>
      mkState p (mainPage st) (externalPage st) (pageLoaded st)
        (webClass st) (webClassMutex st) (trayIcon st) (objects st)
        (requestedUrl st)
  | Var.mainPage =>
      mkState (view st) p (externalPage st) (pageLoaded st)
        (webClass st) (webClassMutex st) (trayIcon st) (objects st)
        (requestedUrl st)
  | Var.externalPage =>
      mkState (view st) (mainPage st) p (pageLoaded st)
        (webClass st) (webClassMutex st) (trayIcon st) (objects st)
        (requestedUrl st)
  | Var.webClass =>
      mkState (view st) (mainPage st) (externalPage st) (pageLoaded st)
        p (webClassMutex st) (trayIcon st) (objects st)
        (requestedUrl st)
  | Var.trayIcon =>
      mkState (view st) (mainPage st) (externalPage st) (pageLoaded st)
        (webClass st) (webClassMutex st) p (objects st)
        (requestedUrl st)
  end.

Definition set_pageLoaded (b : bool) (st : state) : state :=
  mkState (view st) (mainPage st) (externalPage st) b
    (webClass st) (webClassMutex st) (trayIcon st) (objects st)
    (requestedUrl st).

Definition set_webClassMutex (b : bool) (st : state) : state :=
  mkState (view st) (mainPage st) (externalPage st) (pageLoaded st)
    (webClass st) b (trayIcon st) (objects st) (requestedUrl st).

Definition set_objects (h : heap) (st : state) : state :=
  mkState (view st) (mainPage st) (externalPage st) (pageLoaded st)
    (webClass st) (webClassMutex st) (trayIcon st) h (requestedUrl st).

Definition set_requestedUrl (u : string) (st : state) : state :=
  mkState (view st) (mainPage st) (externalPage st) (pageLoaded st)
    (webClass st) (webClassMutex st) (trayIcon st) (objects st) u.

Inductive ConnectionType : Type :=
| AutoConnection
| DirectConnection
| QueuedConnection
| BlockingQueuedConnection.

(** Member functions called through a pointer. *)
Inductive method : Type :=
| pushNotify (msg : string)                    (* WebClass signal *)
| gotResponse (queryID : Z) (response : string) (* WebClass signal *)
| invokeMethod (member : string) (type : ConnectionType)
    (args : list string)                       (* QMetaObject::invokeMethod *)
| raise
| setPage (page : pointer)
| show
| loadUrl (url : string)
| moveToThread_workerThread.

(** Calls on objects that live on the stack of [main], and output. *)
Inductive external : Type :=
| qDebug (text : list string)
| serve (preferredLocale : string)
| channel_registerObject (id : string) (object : pointer)
| channel_deregisterObject (object : pointer)
| workerThread_start
| workerThread_quit
| workerThread_wait.

Inductive event : Type :=
| ELock
| EUnlock
| EStore (x : Var.t) (p : pointer)
| EStorePageLoaded (b : bool)
| ENew (o : qobject) (parent : pointer)
| EDelete (o : qobject)
| ECall (o : qobject) (m : method)
| EExternal (x : external).

(** One atomic action of a thread, indexed by the type of its result. *)
Inductive action : Type -> Type :=
| Load (x : Var.t) : action pointer
| Store (x : Var.t) (p : pointer) : action unit
| LoadPageLoaded : action bool
| StorePageLoaded (b : bool) : action unit
| Lock : action unit
| Unlock : action unit
| New (o : qobject) (parent : pointer) : action pointer
| Delete (p : pointer) : action unit
| Call (p : pointer) (m : method) : action unit
| External (x : external) : action unit.

(** A statement sequence: a tree of atomic actions. *)
Inductive prog (R : Type) : Type :=
| Ret (r : R)
| Vis (X : Type) (a : action X) (k : X -> prog R).

Arguments Ret {R} r.
Arguments Vis {R X} a k.

Fixpoint bind {A B : Type} (p : prog A) (f : A -> prog B) : prog B :=
  match p with
  | Ret r => f r
  | Vis a k => Vis a (fun x => bind (k x) f)
  end.

Definition perform_ {X : Type} (a : action X) : prog X := Vis a Ret.

Inductive outcome (R : Type) : Type :=
| Finished (st : state) (trace : list event) (r : R)
| Blocked        (* waits for [webClassMutex], which nobody releases *)
| Fault.         (* used a null pointer or a destroyed object *)

Arguments Finished {R} st trace r.
Arguments Blocked {R}.
Arguments Fault {R}.

(** The effect of one action on the state. *)
Definition perform {X : Type} (a : action X) (st : state) : outcome X :=
  match a in action X return outcome X with
  | Load x => Finished st [] (load x st)
  | Store x p => Finished (store x p st) [EStore x p] tt
  | LoadPageLoaded => Finished st [] (pageLoaded st)
  | StorePageLoaded b => Finished (set_pageLoaded b st) [EStorePageLoaded b] tt
  | Lock =>
      if webClassMutex st then Blocked
      else Finished (set_webClassMutex true st) [ELock] tt
  | Unlock => Finished (set_webClassMutex false st) [EUnlock] tt
  | New o parent =>
      Finished (set_objects ((o, parent) :: objects st) st)
        [ENew o parent] (Some o)
  | Delete None => Finished st [] tt
  | Delete (Some o) =>
      if alive (objects st) o
      then Finished (set_objects (destroy (objects st) o) st) [EDelete o] tt
      else Fault
  | Call None _ => Fault
  | Call (Some o) m =>
      if alive (objects st) o
      then Finished
             match m with
             | loadUrl url => set_requestedUrl url st
             | _ => st
             end [ECall o m] tt
      else Fault
  | External x => Finished st [EExternal x] tt
  end.

Definition after {R : Type} (pre : list event) (o : outcome R) : outcome R :=
  match o with
  | Finished st tr r => Finished st (pre ++ tr) r
  | Blocked => Blocked
  | Fault => Fault
  end.

(** Run a program to its end with no other thread interfering. *)
Fixpoint exec {R : Type} (p : prog R) (st : state) : outcome R :=
  match p with
  | Ret r => Finished st [] r
  | Vis a k =>
      match perform a st with
      | Finished st' tr x => after tr (exec (k x) st')
      | Blocked => Blocked
      | Fault => Fault
      end
  end.

Definition trace_of {R : Type} (o : outcome R) : list event :=
  match o with
  | Finished _ tr _ => tr
  | _ => []
  end.

End Qt.

(** ** The lambdas of [main] and its skeleton *)
Module App.
Import Qt.

Notation "'do' a" := (perform_ a) (at level 10, a at level 9).
Notation "x <- p ;; q" := (bind p (fun x => q))
  (at level 61, p at next level, right associativity).
Notation "p ;; q" := (bind p (fun _ => q))
  (at level 61, right associativity).

Definition APPNAME : string := "BitBoxApp".

(** *** Backend callbacks handed to [serve] *)

Definition pushNotificationsCallback (msg : string) : prog unit :=
  loaded <- do LoadPageLoaded ;;
  if negb loaded then Ret tt
  else
    do Lock ;;
    wc <- do (Load Var.webClass) ;;
    match wc with
    | Some _ => do (Call wc (pushNotify msg))
    | None => Ret tt
    end ;;
    do Unlock.

Definition responseCallback (queryID : Z) (msg : string) : prog unit :=
  loaded <- do LoadPageLoaded ;;
  if negb loaded then Ret tt
  else
    do Lock ;;
    wc <- do (Load Var.webClass) ;;
    match wc with
    | Some _ => do (Call wc (gotResponse queryID msg))
    | None => Ret tt
    end ;;
    do Unlock.

Definition notifyUserCallback (msg : string) : prog unit :=
  ti <- do (Load Var.trayIcon) ;;
  match ti with
  | None => Ret tt
  | Some _ =>
      do (Call ti (invokeMethod "showMessage" QueuedConnection [APPNAME; msg]))
  end.

(** *** Signal handlers *)

(** [QWebEngineView::loadFinished] *)
Definition loadFinished (ok : bool) : prog unit :=
  do (StorePageLoaded ok).

(** [QString::fromUtf8]: strings are kept in their UTF-8 encoding. *)
Definition fromUtf8 (message : string) : string := message.

(** [SingleApplication::receivedMessage] *)
Definition receivedMessage (instanceId : Z) (message : string) : prog unit :=
  let args := fromUtf8 message in
  do (External (qDebug ["Received args from secondary instance:"; args])).

(** [SingleApplication::instanceStarted] *)
Definition instanceStarted : prog unit :=
  v <- do (Load Var.view) ;;
  do (Call v raise).

(** [QApplication::aboutToQuit] *)
Definition aboutToQuit : prog unit :=
  do Lock ;;
  wc <- do (Load Var.webClass) ;;
  do (External (channel_deregisterObject wc)) ;;
  wc <- do (Load Var.webClass) ;;
  do (Delete wc) ;;
  do (Store Var.webClass None) ;;
  v <- do (Load Var.view) ;;
  do (Delete v) ;;
  do (Store Var.view None) ;;
  do Unlock ;;
  do (External workerThread_quit) ;;
  do (External workerThread_wait).

(** *** [main], primary instance

    The statements that create QObjects, assign the globals or call
    [serve]; window geometry, settings, icons and the connections of the
    signals are left out. *)

(** What a secondary instance sends: [a.arguments().join(' ')]. *)
Definition forwarded (arguments : list string) : string :=
  String.concat " " arguments.

(** From [view = new WebEngineView()] to [workerThread.start()]. *)
Definition main_setup : prog unit :=
  v <- do (New obj_view None) ;;
  do (Store Var.view v) ;;
  v <- do (Load Var.view) ;;
  p <- do (New obj_externalPage v) ;;
  do (Store Var.externalPage p) ;;
  v <- do (Load Var.view) ;;
  p <- do (New obj_mainPage v) ;;
  do (Store Var.mainPage p) ;;
  v <- do (Load Var.view) ;;
  p <- do (Load Var.mainPage) ;;
  do (Call v (setPage p)) ;;
  do (StorePageLoaded false) ;;
  w <- do (New obj_webClass None) ;;
  do (Store Var.webClass w) ;;
  w <- do (Load Var.webClass) ;;
  do (Call w moveToThread_workerThread) ;;
  do (External workerThread_start).

(** The call of [serve], which registers the three callbacks. *)
Definition main_serve (preferredLocale : string) : prog unit :=
  do (External (serve preferredLocale)).

(** From [channel.registerObject] to [trayIcon->show()]. *)
Definition main_show : prog unit :=
  w <- do (Load Var.webClass) ;;
  do (External (channel_registerObject "backend" w)) ;;
  v <- do (Load Var.view) ;;
  do (Call v show) ;;
  v <- do (Load Var.view) ;;
  do (Call v (loadUrl "qrc:/index.html")) ;;
  _ <- do (New obj_quitAction (Some obj_a)) ;;
  v <- do (Load Var.view) ;;
  _ <- do (New obj_trayIconMenu v) ;;
  v <- do (Load Var.view) ;;
  t <- do (New obj_trayIcon v) ;;
  do (Store Var.trayIcon t) ;;
  t <- do (Load Var.trayIcon) ;;
  do (Call t show).

Definition state_of {R : Type} (o : outcome R) : state :=
  match o with
  | Finished st _ _ => st
  | _ => static_init
  end.

(** The globals when [serve] is called, and when [a.exec()] starts. *)
Definition at_serve : state := state_of (exec main_setup static_init).

Definition running (preferredLocale : string) : state :=
  state_of (exec (main_serve preferredLocale ;; main_show) at_serve).

(** [RequestInterceptor::interceptRequest] reads [mainPage]. *)
Definition interceptRequest (QT_BITBOX_ALLOW_EXTERNAL_URLS : bool)
    (st : state) (info : Policy.QWebEngineUrlRequestInfo)
  : Policy.QWebEngineUrlRequestInfo * list Policy.side_effect :=
  Policy.interceptRequest QT_BITBOX_ALLOW_EXTERNAL_URLS (requestedUrl st) info.

(** *** Observations on traces *)

(** An event that reaches the web UI: a [WebClass] signal. *)
Definition ui_delivery (e : event) : bool :=
  match e with
  | ECall _ (pushNotify _) | ECall _ (gotResponse _ _) => true
  | _ => false
  end.

(** An event that reaches the tray icon. *)
Definition tray_delivery (e : event) : bool :=
  match e with
  | ECall _ (invokeMethod _ _ _) => true
  | _ => false
  end.

(** An event that raises a window. *)
Definition is_raise (e : event) : bool :=
  match e with
  | ECall _ raise => true
  | _ => false
  end.

(** What a UI-bound callback does, by the state it is called in. *)
Definition ui_callback_run (m : method) (st : state) : outcome unit :=
  if negb (pageLoaded st) then Finished st [] tt
  else if webClassMutex st then Blocked
  else match webClass st with
       | None => Finished st [ELock; EUnlock] tt
       | Some w =>
           if alive (objects st) w
           then Finished st [ELock; ECall w m; EUnlock] tt
           else Fault
       end.

(** *** Teardown steps *)

Inductive teardown_step : Type :=
| DeregisterChannel     (* channel.deregisterObject(webClass) *)
| ClearLiveness         (* webClass = nullptr *)
| StopWorker            (* workerThread.quit() *)
| ReleaseSurface        (* delete view *)
| JoinWorker.           (* workerThread.wait() *)

Definition teardown_step_of (surface : qobject) (e : event)
  : option teardown_step :=
  match e with
  | EExternal (channel_deregisterObject _) => Some DeregisterChannel
  | EStore Var.webClass None => Some ClearLiveness
  | EExternal workerThread_quit => Some StopWorker
  | EDelete o => if qobject_eqb o surface then Some ReleaseSurface else None
  | EExternal workerThread_wait => Some JoinWorker
  | _ => None
  end.

Fixpoint teardown_steps (surface : qobject) (trace : list event)
  : list teardown_step :=
  match trace with
  | [] => []
  | e :: trace' =>
      match teardown_step_of surface e with
      | Some s => s :: teardown_steps surface trace'
      | None => teardown_steps surface trace'
      end
  end.

(** The events between [lock()] and [unlock()]. *)
Fixpoint under_lock (held : bool) (trace : list event) : list event :=
  match trace with
  | [] => []
  | ELock :: trace' => under_lock true trace'
  | EUnlock :: trace' => under_lock false trace'
  | e :: trace' =>
      if held then e :: under_lock held trace' else under_lock held trace'
  end.

(** *** The history of [pageLoaded] *)

(** The values of [pageLoaded]: now, and after each [loadFinished(ok)]
    signal of [signals]. *)
Fixpoint pageLoaded_history (signals : list bool) (st : state) : list bool :=
  pageLoaded st ::
  match signals with
  | [] => []
  | ok :: signals' =>
      pageLoaded_history signals' (state_of (exec (loadFinished ok) st))
  end.

(** Number of changes from [from] to [negb from] in a history. *)
Fixpoint changes (from : bool) (history : list bool) : nat :=
  match history with
  | b :: ((b' :: _) as rest) =>
      (if Bool.eqb b from && Bool.eqb b' (negb from) then 1 else 0)
      + changes from rest
  | _ => 0
  end.

End App.

(** ** Threads: the callbacks and handlers interleaved

    The backend calls the callbacks from threads of its own while the main
    thread runs the signal handlers.  A system is the globals, one program
    per thread and the events so far; a schedule names, step by step, the
    thread that performs its next atomic action.  A thread that waits for
    [webClassMutex] or has returned does nothing when scheduled. *)
Module Threads.
Import Qt App.

Section Scheduler.

Variable thread : Type.
Variable step_thread : thread -> state -> outcome thread.

Record system : Type := mkSystem {
  globals : state;
  threads : list thread;
  log : list event
}.

Fixpoint replace (i : nat) (t : thread) (l : list thread) : list thread :=
  match l, i with
  | [], _ => []
  | _ :: l', O => t :: l'
  | t' :: l', S i' => t' :: replace i' t l'
  end.

(** [None]: the scheduled thread used a null pointer or a destroyed
    object. *)
Definition step (i : nat) (s : system) : option system :=
  match nth_error (threads s) i with
  | None => Some s
  | Some t =>
      match step_thread t (globals s) with
      | Finished st' tr t' =>
          Some (mkSystem st' (replace i t' (threads s)) (log s ++ tr))
      | Blocked => Some s
      | Fault => None
      end
  end.

Fixpoint run (schedule : list nat) (s : system) : option system :=
  match schedule with
  | [] => Some s
  | i :: schedule' =>
      match step i s with
      | Some s' => run schedule' s'
      | None => None
      end
  end.

End Scheduler.

Arguments mkSystem {thread} globals threads log.
Arguments globals {thread} s.
Arguments threads {thread} s.
Arguments log {thread} s.
Arguments replace {thread} i t l.
Arguments step {thread} step_thread i s.
Arguments run {thread} step_thread schedule s.

(** The next atomic action of a program. *)
Definition step_prog (p : prog unit) (st : state) : outcome (prog unit) :=
  match p with
  | Ret r => Finished st [] (Ret r)
  | Vis a k =>
      match perform a st with
      | Finished st' tr x => Finished st' tr (k x)
      | Blocked => Blocked
      | Fault => Fault
      end
  end.

(** What the backend and the event loop of the main thread may start. *)
Inductive call : Type :=
| call_pushNotifications (msg : string)
| call_response (queryID : Z) (msg : string)
| call_loadFinished (ok : bool)
| call_aboutToQuit.

Definition start (c : call) : prog unit :=
  match c with
  | call_pushNotifications msg => pushNotificationsCallback msg
  | call_response queryID msg => responseCallback queryID msg
  | call_loadFinished ok => loadFinished ok
  | call_aboutToQuit => aboutToQuit
  end.

(** [webClass = nullptr] *)
Definition clears (e : event) : bool :=
  match e with
  | EStore Var.webClass None => true
  | _ => false
  end.

(** No [WebClass] signal is emitted after [webClass = nullptr]. *)
Fixpoint quiet_after_clear (cleared : bool) (trace : list event) : bool :=
  match trace with
  | [] => true
  | e :: trace' =>
      negb (cleared && ui_delivery e)
      && quiet_after_clear (cleared || clears e) trace'
  end.

Definition system_map {A B : Type} (f : A -> B) (s : system A) : system B :=
  mkSystem (globals s) (map f (threads s)) (log s).

(** *** Program points

    The points a thread started by [start] can be at, with the values it
    has read, and the rest of its program at each point. *)
Inductive pc : Type :=
| Cb_start (m : method)
| Cb_lock (m : method)
| Cb_load (m : method)
| Cb_call (m : method) (wc : pointer)
| Cb_unlock
| Lf (ok : bool)
| Td_lock
| Td_load1
| Td_dereg (wc : pointer)
| Td_load2
| Td_delete (wc : pointer)
| Td_store
| Td_loadv
| Td_deletev (v : pointer)
| Td_storev
| Td_unlock
| Td_quit
| Td_wait
| Done.

Definition cb_call (m : method) (wc : pointer) : prog unit :=
  match wc with
  | Some _ => do (Call wc m)
  | None => Ret tt
  end ;;
  do Unlock.

Definition cb_load (m : method) : prog unit :=
  wc <- do (Load Var.webClass) ;; cb_call m wc.

Definition cb_lock (m : method) : prog unit :=
  do Lock ;; cb_load m.

Definition cb_start (m : method) : prog unit :=
  loaded <- do LoadPageLoaded ;;
  if negb loaded then Ret tt else cb_lock m.

Definition td_wait : prog unit := do (External workerThread_wait).
Definition td_quit : prog unit := do (External workerThread_quit) ;; td_wait.
Definition td_unlock : prog unit := do Unlock ;; td_quit.
Definition td_storev : prog unit := do (Store Var.view None) ;; td_unlock.
Definition td_deletev (v : pointer) : prog unit := do (Delete v) ;; td_storev.
Definition td_loadv : prog unit := v <- do (Load Var.view) ;; td_deletev v.
Definition td_store : prog unit := do (Store Var.webClass None) ;; td_loadv.
Definition td_delete (wc : pointer) : prog unit := do (Delete wc) ;; td_store.
Definition td_load2 : prog unit := wc <- do (Load Var.webClass) ;; td_delete wc.
Definition td_dereg (wc : pointer) : prog unit :=
  do (External (channel_deregisterObject wc)) ;; td_load2.
Definition td_load1 : prog unit := wc <- do (Load Var.webClass) ;; td_dereg wc.
Definition td_lock : prog unit := do Lock ;; td_load1.

Definition code (p : pc) : prog unit :=
  match p with
  | Cb_start m => cb_start m
  | Cb_lock m => cb_lock m
  | Cb_load m => cb_load m
  | Cb_call m wc => cb_call m wc
  | Cb_unlock => do Unlock
  | Lf ok => loadFinished ok
  | Td_lock => td_lock
  | Td_load1 => td_load1
  | Td_dereg wc => td_dereg wc
  | Td_load2 => td_load2
  | Td_delete wc => td_delete wc
  | Td_store => td_store
  | Td_loadv => td_loadv
  | Td_deletev v => td_deletev v
  | Td_storev => td_storev
  | Td_unlock => td_unlock
  | Td_quit => td_quit
  | Td_wait => td_wait
  | Done => Ret tt
  end.

Definition entry (c : call) : pc :=
  match c with
  | call_pushNotifications msg => Cb_start (pushNotify msg)
  | call_response queryID msg => Cb_start (gotResponse queryID msg)
  | call_loadFinished ok => Lf ok
  | call_aboutToQuit => Td_lock
  end.

Definition and_then {X : Type} (o : outcome X) (next : X -> pc) : outcome pc :=
  match o with
  | Finished st tr x => Finished st tr (next x)
  | Blocked => Blocked
  | Fault => Fault
  end.

(** The action at a program point and the point it leads to. *)
Definition step_pc (p : pc) (st : state) : outcome pc :=
  match p with
  | Cb_start m =>
      and_then (perform LoadPageLoaded st)
        (fun loaded => if negb loaded then Done else Cb_lock m)
  | Cb_lock m => and_then (perform Lock st) (fun _ => Cb_load m)
  | Cb_load m => and_then (perform (Load Var.webClass) st) (Cb_call m)
  | Cb_call m (Some w) =>
      and_then (perform (Call (Some w) m) st) (fun _ => Cb_unlock)
  | Cb_call m None => and_then (perform Unlock st) (fun _ => Done)
  | Cb_unlock => and_then (perform Unlock st) (fun _ => Done)
  | Lf ok => and_then (perform (StorePageLoaded ok) st) (fun _ => Done)
  | Td_lock => and_then (perform Lock st) (fun _ => Td_load1)
  | Td_load1 => and_then (perform (Load Var.webClass) st) Td_dereg
  | Td_dereg wc =>
      and_then (perform (External (channel_deregisterObject wc)) st)
        (fun _ => Td_load2)
  | Td_load2 => and_then (perform (Load Var.webClass) st) Td_delete
  | Td_delete wc => and_then (perform (Delete wc) st) (fun _ => Td_store)
  | Td_store =>
      and_then (perform (Store Var.webClass None) st) (fun _ => Td_loadv)
  | Td_loadv => and_then (perform (Load Var.view) st) Td_deletev
  | Td_deletev v => and_then (perform (Delete v) st) (fun _ => Td_storev)
  | Td_storev =>
      and_then (perform (Store Var.view None) st) (fun _ => Td_unlock)
  | Td_unlock => and_then (perform Unlock st) (fun _ => Td_quit)
  | Td_quit =>
      and_then (perform (External workerThread_quit) st) (fun _ => Td_wait)
  | Td_wait =>
      and_then (perform (External workerThread_wait) st) (fun _ => Done)
  | Done => Finished st [] Done
  end.

(** The points between [lock()] and [unlock()]. *)
Definition holds_lock (p : pc) : bool :=
  match p with
  | Cb_load _ | Cb_call _ _ | Cb_unlock
  | Td_load1 | Td_dereg _ | Td_load2 | Td_delete _ | Td_store
  | Td_loadv | Td_deletev _ | Td_storev | Td_unlock => true
  | _ => false
  end.

Definition holders (pcs : list pc) : nat := length (filter holds_lock pcs).

Definition lock_count (b : bool) : nat := if b then 1 else 0.

(** The points at which a pointer to a destroyed object is in a global:
    between [delete webClass] and [webClass = nullptr], and between
    [delete view] and [view = nullptr]. *)
Definition at_Td_store (p : pc) : bool :=
  match p with Td_store => true | _ => false end.

Definition at_Td_storev (p : pc) : bool :=
  match p with Td_storev => true | _ => false end.

Definition valid (st : state) (p : pointer) : Prop :=
  match p with
  | Some o => alive (objects st) o = true
  | None => True
  end.

(** What a thread at [p] relies on. *)
Definition pc_ok (st : state) (p : pc) : Prop :=
  match p with
  | Cb_call _ wc => wc = webClass st
  | Td_dereg wc | Td_delete wc => wc = webClass st
  | Td_loadv | Td_storev => webClass st = None
  | Td_deletev v => v = view st /\ webClass st = None
  | _ => True
  end.

Record invariant (st : state) (pcs : list pc) (trace : list event) : Prop := {
  inv_mutex : holders pcs = if webClassMutex st then 1 else 0;
  inv_webClass : existsb at_Td_store pcs = false -> valid st (webClass st);
  inv_view : existsb at_Td_storev pcs = false -> valid st (view st);
  inv_apart :
    existsb at_Td_store pcs = false ->
    forall w v, webClass st = Some w -> view st = Some v ->
                alive (destroy (objects st) w) v = true;
  inv_pcs : Forall (pc_ok st) pcs;
  inv_quiet : quiet_after_clear false trace = true;
  inv_cleared : existsb clears trace = true -> webClass st = None
}.

End Threads.

(** ** Measures on program points *)
Module Progress.
Import Qt App Threads.

(** The number of atomic actions a thread at [p] has left at most. *)
Definition remaining (p : pc) : nat :=
  match p with
  | Cb_start _ => 5
  | Cb_lock _ => 4
  | Cb_load _ => 3
  | Cb_call _ _ => 2
  | Cb_unlock => 1
  | Lf _ => 1
  | Td_lock => 12
  | Td_load1 => 11
  | Td_dereg _ => 10
  | Td_load2 => 9
  | Td_delete _ => 8
  | Td_store => 7
  | Td_loadv => 6
  | Td_deletev _ => 5
  | Td_storev => 4
  | Td_unlock => 3
  | Td_quit => 2
  | Td_wait => 1
  | Done => 0
  end.

Definition total (pcs : list pc) : nat := list_sum (map remaining pcs).

(** The points of a thread that has not found [pageLoaded] true and will
    not set it. *)
Definition before_load (p : pc) : bool :=
  match p with
  | Cb_lock _ | Cb_load _ | Cb_call _ _ | Cb_unlock => false
  | Lf ok => negb ok
  | _ => true
  end.

Definition sets_loaded (c : call) : bool :=
  match c with
  | call_loadFinished ok => ok
  | _ => false
  end.

(** The [loadFinished] handler run for each signal in turn. *)
Fixpoint loadFinished_all (signals : list bool) : prog unit :=
  match signals with
  | [] => Ret tt
  | ok :: signals' => loadFinished ok ;; loadFinished_all signals'
  end.

Definition log_of_run {T : Type} (r : option (system T)) : list event :=
  match r with
  | Some s => log s
  | None => []
  end.

Definition returned (p : prog unit) : bool :=
  match p with
  | Ret _ => true
  | Vis _ _ => false
  end.

End Progress.

(** ** WebEngineView::contextMenuEvent

    A [QAction*] is an address.  [action] is [page()->action(...)],
    [isSeparator] and [isVisible] are the members of [QAction] that
    [QMenu::isEmpty] reads.  A menu is the list of its actions;
    [QWidget::removeAction] takes every occurrence of an action out. *)
Module ContextMenu.

Inductive WebAction : Type :=
| Cut
| Copy
| Paste
| Undo
| Redo
| SelectAll
| Unselect
| OtherWebAction (n : nat).

Definition QAction : Type := nat.

Section Page.

Variable action : WebAction -> QAction.
Variable isSeparator : QAction -> bool.
Variable isVisible : QAction -> bool.

Definition whitelist : list QAction :=
  [action Cut; action Copy; action Paste; action Undo; action Redo;
   action SelectAll; action Unselect].

(** [whitelist.find(a) != whitelist.cend()] *)
Definition find (s : list QAction) (a : QAction) : bool :=
  existsb (Nat.eqb a) s.

Definition removeAction (a : QAction) (menu : list QAction) : list QAction :=
  filter (fun b => negb (Nat.eqb b a)) menu.

(** The loop over the copy of the list that [menu->actions()] returns. *)
Fixpoint prune (actions menu : list QAction) : list QAction :=
  match actions with
  | [] => menu
  | a :: actions' =>
      prune actions' (if find whitelist a then menu else removeAction a menu)
  end.

(** [QMenu::isEmpty]: no action that is visible and not a separator. *)
Definition isEmpty (menu : list QAction) : bool :=
  forallb (fun a => isSeparator a || negb (isVisible a)) menu.

(** The handler, given the actions of [createStandardContextMenu()]:
    the menu it ends with, and where it pops up, if it does. *)
Definition contextMenuEvent (standard : list QAction) (globalPos : Z * Z)
  : list QAction * option (Z * Z) :=
  let menu := prune standard standard in
  (menu, if negb (isEmpty menu) then Some globalPos else None).

End Page.

End ContextMenu.

(** ** One attempt among other threads *)
Module Attempts.
Import Qt App Threads.

(** The next action of a thread that has one and is not held up: the
    state after it, its events and the rest of the program. *)
Definition advance (p : prog unit) (st : state)
  : option (state * list event * prog unit) :=
  match p with
  | Ret _ => None
  | Vis a k =>
      match perform a st with
      | Finished st' ev x => Some (st', ev, k x)
      | _ => None
      end
  end.

(** [thread_run p obs]: the thread with program [p] can perform its next
    actions in the states [map fst obs], one action per state, with the
    events [map snd obs].  The states are those the other threads have
    left behind; nothing relates one to the next. *)
Fixpoint thread_run (p : prog unit) (obs : list (state * list event)) : Prop :=
  match obs with
  | [] => True
  | (st, ev) :: obs' =>
      match advance p st with
      | Some (_, ev', p') => ev' = ev /\ thread_run p' obs'
      | None => False
      end
  end.

(** What thread [i] does in the course of a schedule: for each of its
    actions, the globals it found and the events of the action. *)
Fixpoint observations (i : nat) (schedule : list nat)
    (s : system (prog unit)) : list (state * list event) :=
  match schedule with
  | [] => []
  | j :: schedule' =>
      match step step_prog j s with
      | None => []
      | Some s' =>
          (if Nat.eqb j i
           then match nth_error (threads s) i with
                | Some p =>
                    match advance p (globals s) with
                    | Some (_, ev, _) => [(globals s, ev)]
                    | None => []
                    end
                | None => []
                end
           else [])
          ++ observations i schedule' s'
      end
  end.

(** The signal a UI-bound callback emits. *)
Definition ui_method (c : call) : option method :=
  match c with
  | call_pushNotifications msg => Some (pushNotify msg)
  | call_response queryID msg => Some (gotResponse queryID msg)
  | _ => None
  end.

Definition events_of (obs : list (state * list event)) : list event :=
  concat (map snd obs).

End Attempts.

(** ** The onramp pattern *)
Module PatternFacts.
Import QRegularExpression.

Lemma dotstar_dollar (s : string) :
  forall first, match_here [DotStar; Dollar] first s = one_line s.
Proof.
  induction s as [|c s IH]; intros first.
  - reflexivity.
  - cbn [match_here at_subject_end one_line] in *.
    rewrite (IH false).
    destruct (Ascii.eqb c line_feed); destruct s; cbn;
      rewrite ?andb_true_r, ?orb_false_r; reflexivity.
Qed.

Lemma caret_needs_offset_0 (re : list token) (s : string) :
  search (Caret :: re) false s = false.
Proof.
  induction s as [|c s IH]; cbn [search match_here andb orb]; auto.
Qed.

Lemma match_literals (p : string) :
  forall re first s,
    match_here (literals p ++ re) first s =
    match drop_prefix p s with
    | Some rest =>
        match_here re (first && match p with EmptyString => true | _ => false end) rest
    | None => false
    end.
Proof.
  induction p as [|c p IH]; intros re first s.
  - cbn. now rewrite andb_true_r.
  - destruct s as [|d s]; [reflexivity|].
    change (literals (String c p) ++ re)
      with (Literal c :: (literals p ++ re)).
    cbn [match_here drop_prefix].
    destruct (Ascii.eqb c d); cbn [andb]; [|reflexivity].
    rewrite IH. rewrite andb_false_r.
    destruct (drop_prefix p s); [|reflexivity].
    now destruct p.
Qed.

Lemma drop_prefix_Some (p s rest : string) :
  drop_prefix p s = Some rest <-> s = (p ++ rest)%string.
Proof.
  revert s; induction p as [|c p IH]; intros s; cbn.
  - split; [now intros [= ->] | now intros ->].
  - destruct s as [|d s]; [split; discriminate|].
    destruct (Ascii.eqb_spec c d) as [->|Hne].
    + rewrite IH. split; [now intros -> | now intros [= ->]].
    + split; [discriminate | intros [= E _]; now elim Hne].
Qed.

Lemma contains_buy (u : string) :
  contains u "^qrc:/buy/.*$" =
  match drop_prefix "qrc:/buy/" u with
  | Some rest => one_line rest
  | None => false
  end.
Proof.
  unfold contains.
  change (compile "^qrc:/buy/.*$")
    with (Caret :: (literals "qrc:/buy/" ++ [DotStar; Dollar])).
  assert (Hhere : match_here (Caret :: literals "qrc:/buy/" ++ [DotStar; Dollar]) true u
                  = match drop_prefix "qrc:/buy/" u with
                    | Some rest => one_line rest
                    | None => false
                    end).
  { cbn [match_here andb]. rewrite match_literals.
    destruct (drop_prefix "qrc:/buy/" u); [apply dotstar_dollar | reflexivity]. }
  destruct u as [|c u].
  - reflexivity.
  - cbn [search]. rewrite Hhere, caret_needs_offset_0. apply orb_false_r.
Qed.

(** X1. The current page is the onramp page exactly when its URL starts with
    [qrc:/buy/] and has no line feed after that, a final one apart. *)
Lemma onBuyPage_iff (currentUrl : string) :
  Policy.onBuyPage currentUrl = true <->
  exists rest, currentUrl = ("qrc:/buy/" ++ rest)%string /\ one_line rest = true.
Proof.
  unfold Policy.onBuyPage. rewrite contains_buy.
  destruct (drop_prefix "qrc:/buy/" currentUrl) as [rest|] eqn:E.
  - apply drop_prefix_Some in E. split.
    + intros H. now exists rest.
    + intros (rest' & Hu & H). rewrite E in Hu.
      assert (rest = rest') as ->; [|exact H].
      cbn in Hu. now injection Hu.
  - split; [discriminate|].
    intros (rest & Hu & _).
    apply drop_prefix_Some in Hu. congruence.
Qed.

Example onBuyPage_moonpay : Policy.onBuyPage "qrc:/buy/moonpay" = true.
Proof. reflexivity. Qed.

Example onBuyPage_index : Policy.onBuyPage "qrc:/index.html" = false.
Proof. reflexivity. Qed.

Example onBuyPage_not_a_prefix : Policy.onBuyPage "https://x/qrc:/buy/" = false.
Proof. reflexivity. Qed.

End PatternFacts.

(** ** The navigation policy *)
Module PolicyFacts.
Import Policy.

Lemma interceptRequest_cases (allow_all : bool) (currentUrl : string)
    (requested firstParty : QUrl) :
  interceptRequest allow_all currentUrl (incoming requested firstParty) =
  if allow_all then (incoming requested firstParty, [])
  else if local_scheme requested then (incoming requested firstParty, [])
  else if onBuyPage currentUrl then
    if String.eqb (toString firstParty) (toString requested)
    then (mkInfo requested firstParty true, [systemOpen (toString requested)])
    else (incoming requested firstParty, [])
  else (mkInfo requested firstParty true,
        [cerr ("Blocked: " ++ toString requested)]).
Proof. reflexivity. Qed.

(** The rules in the order in which the first that matches decides. *)
Lemma decide_first_match (currentUrl : string) (requested firstParty : QUrl) :
  decide enforcing currentUrl requested firstParty =
  if local_scheme requested then Allow
  else if onBuyPage currentUrl then
    if String.eqb (toString firstParty) (toString requested)
    then BlockAndOpenExternally
    else Allow
  else Block.
Proof.
  unfold decide. rewrite interceptRequest_cases. unfold enforcing.
  destruct (local_scheme requested); [reflexivity|].
  destruct (onBuyPage currentUrl); [|reflexivity].
  destruct (String.eqb _ _); reflexivity.
Qed.

(** With the macro defined nothing is blocked and nothing else happens. *)
Lemma allow_external_urls (currentUrl : string) (requested firstParty : QUrl) :
  decide true currentUrl requested firstParty = Allow /\
  side_effects true currentUrl requested firstParty = [].
Proof. split; reflexivity. Qed.

Lemma local_scheme_iff (requested : QUrl) :
  local_scheme requested = true <->
  scheme requested = "qrc" \/ scheme requested = "blob".
Proof.
  unfold local_scheme. rewrite orb_true_iff, !String.eqb_eq. reflexivity.
Qed.

(** The external-open happens in the carved-out case and in no other. *)
Lemma systemOpen_only_on_buy_page (allow_all : bool) (currentUrl : string)
    (requested firstParty : QUrl) :
  filter is_systemOpen (side_effects allow_all currentUrl requested firstParty) =
  if negb allow_all && negb (local_scheme requested) && onBuyPage currentUrl
     && String.eqb (toString firstParty) (toString requested)
  then [systemOpen (toString requested)]
  else [].
Proof.
  unfold side_effects. rewrite interceptRequest_cases.
  destruct allow_all; [reflexivity|].
  destruct (local_scheme requested); [reflexivity|].
  destruct (onBuyPage currentUrl); [|reflexivity].
  destruct (String.eqb _ _); reflexivity.
Qed.

(** C3. Requests for [qrc] and [blob] URLs are allowed by the first rule,
    before the current page or the two URLs are looked at: whatever the
    current page and the first-party URL, and in either build, the
    request is not blocked, nothing is opened and nothing is logged.
    The first conjunct gives the order of all the rules. *)
Theorem local_requests_allowed (allow_all : bool) (currentUrl : string)
    (requested firstParty : QUrl) :
  scheme requested = "qrc" \/ scheme requested = "blob" ->
  (forall cur req fp,
      decide enforcing cur req fp =
      if local_scheme req then Allow
      else if onBuyPage cur then
        if String.eqb (toString fp) (toString req)
        then BlockAndOpenExternally else Allow
      else Block) /\
  interceptRequest allow_all currentUrl (incoming requested firstParty)
    = (incoming requested firstParty, []) /\
  decide allow_all currentUrl requested firstParty = Allow /\
  side_effects allow_all currentUrl requested firstParty = [].
Proof.
  intros Hlocal. apply local_scheme_iff in Hlocal.
  split; [intros; apply decide_first_match|].
  unfold decide, side_effects.
  rewrite interceptRequest_cases, Hlocal.
  destruct allow_all; repeat split.
Qed.

Lemma local_requests_allowed_on_buy_page :
  let req := mkQUrl "blob" "blob:qrc:/1f0c" in
  (scheme req = "qrc" \/ scheme req = "blob") /\
  interceptRequest enforcing "qrc:/buy/moonpay" (incoming req req)
    = (incoming req req, []) /\
  decide enforcing "qrc:/buy/moonpay" req req = Allow.
Proof.
  intros req.
  assert (Hlocal : scheme req = "qrc" \/ scheme req = "blob")
    by (right; reflexivity).
  split; [exact Hlocal|].
  destruct (local_requests_allowed enforcing "qrc:/buy/moonpay" req req Hlocal)
    as (_ & H1 & H2 & _).
  split; assumption.
Defined.

(** C4. In an enforcing build, a request with another scheme than [qrc]
    and [blob], made while the current page is the onramp page, whose
    URL equals its first-party URL is blocked and handed to [systemOpen]
    exactly once.  [systemOpen] is called in no other case, and the
    outcome depends on the request and on the URL of the main page
    only, not on the rest of the globals. *)
Theorem buy_page_navigation_opened_externally (currentUrl : string)
    (requested firstParty : QUrl) :
  local_scheme requested = false ->
  onBuyPage currentUrl = true ->
  toString requested = toString firstParty ->
  decide enforcing currentUrl requested firstParty = BlockAndOpenExternally /\
  side_effects enforcing currentUrl requested firstParty
    = [systemOpen (toString requested)] /\
  (forall allow_all cur req fp,
      filter is_systemOpen (side_effects allow_all cur req fp) =
      if negb allow_all && negb (local_scheme req) && onBuyPage cur
         && String.eqb (toString fp) (toString req)
      then [systemOpen (toString req)] else []) /\
  (forall allow_all st1 st2 info,
      Qt.requestedUrl st1 = Qt.requestedUrl st2 ->
      App.interceptRequest allow_all st1 info
      = App.interceptRequest allow_all st2 info).
Proof.
  intros Hscheme Hbuy Heq.
  rewrite decide_first_match. unfold side_effects.
  rewrite interceptRequest_cases. unfold enforcing.
  rewrite Hscheme, Hbuy, Heq, String.eqb_refl.
  repeat split.
  - intros; apply systemOpen_only_on_buy_page.
  - intros allow_all st1 st2 info E. unfold App.interceptRequest.
    now rewrite E.
Qed.

Lemma buy_page_navigation_opened_externally_example :
  let req := mkQUrl "https" "https://buy.moonpay.com/terms" in
  local_scheme req = false /\
  onBuyPage "qrc:/buy/moonpay" = true /\
  decide enforcing "qrc:/buy/moonpay" req req = BlockAndOpenExternally /\
  side_effects enforcing "qrc:/buy/moonpay" req req
    = [systemOpen "https://buy.moonpay.com/terms"].
Proof.
  intros req.
  destruct (buy_page_navigation_opened_externally "qrc:/buy/moonpay" req req)
    as (H1 & H2 & _); [reflexivity | reflexivity | reflexivity |].
  repeat split; assumption.
Defined.

(** C5. In an enforcing build, a request with another scheme than [qrc]
    and [blob], made while the current page is not the onramp page, is
    blocked; the interceptor returns normally and all it does besides is
    to write one line, "Blocked: " and the URL, to [std::cerr]. *)
Theorem other_requests_blocked (currentUrl : string)
    (requested firstParty : QUrl) :
  local_scheme requested = false ->
  onBuyPage currentUrl = false ->
  interceptRequest enforcing currentUrl (incoming requested firstParty)
    = (block true (incoming requested firstParty),
       [cerr ("Blocked: " ++ toString requested)]) /\
  decide enforcing currentUrl requested firstParty = Block /\
  side_effects enforcing currentUrl requested firstParty
    = [cerr ("Blocked: " ++ toString requested)].
Proof.
  intros Hscheme Hbuy.
  rewrite decide_first_match. unfold side_effects.
  rewrite interceptRequest_cases. unfold enforcing.
  rewrite Hscheme, Hbuy. repeat split.
Qed.

Lemma other_requests_blocked_example :
  let req := mkQUrl "https" "https://example.com/x.js" in
  let fp := mkQUrl "qrc" "qrc:/index.html" in
  local_scheme req = false /\
  onBuyPage "qrc:/index.html" = false /\
  decide enforcing "qrc:/index.html" req fp = Block /\
  side_effects enforcing "qrc:/index.html" req fp
    = [cerr "Blocked: https://example.com/x.js"].
Proof.
  intros req fp.
  destruct (other_requests_blocked "qrc:/index.html" req fp)
    as (_ & H1 & H2); [reflexivity | reflexivity |].
  repeat split; assumption.
Defined.

End PolicyFacts.

(** ** The QObject heap *)
Module HeapFacts.
Import Qt.

Lemma qobject_eqb_eq (x y : qobject) : qobject_eqb x y = true <-> x = y.
Proof. destruct x, y; cbn; split; (reflexivity || discriminate). Qed.

Lemma qobject_eqb_refl (x : qobject) : qobject_eqb x x = true.
Proof. now apply qobject_eqb_eq. Qed.

Lemma under_root (n : nat) (h : heap) (root : qobject) :
  under n h root root = true.
Proof. destruct n; cbn; now rewrite qobject_eqb_refl. Qed.

Lemma alive_iff (h : heap) (o : qobject) :
  alive h o = true <-> exists p, In (o, p) h.
Proof.
  unfold alive. rewrite existsb_exists. split.
  - intros ([o' p] & Hin & Ho). apply qobject_eqb_eq in Ho. cbn in Ho.
    subst. now exists p.
  - intros (p & Hin). exists (o, p). split; [assumption|].
    apply qobject_eqb_refl.
Qed.

(** Destruction removes the object and brings nothing back. *)
Lemma destroyed_not_alive (h : heap) (root : qobject) :
  alive (destroy h root) root = false.
Proof.
  destruct (alive (destroy h root) root) eqn:E; [|reflexivity].
  apply alive_iff in E as (p & Hin).
  apply filter_In in Hin as [_ Hf]. cbn [fst] in Hf.
  now rewrite under_root in Hf.
Qed.

Lemma alive_after_destroy (h : heap) (root o : qobject) :
  alive (destroy h root) o = true -> alive h o = true.
Proof.
  rewrite !alive_iff. intros (p & Hin).
  apply filter_In in Hin as [Hin _]. now exists p.
Qed.

Lemma not_alive_after_destroy (h : heap) (root o : qobject) :
  alive h o = false -> alive (destroy h root) o = false.
Proof.
  intros Hdead. destruct (alive (destroy h root) o) eqn:E; [|reflexivity].
  apply alive_after_destroy in E. congruence.
Qed.

End HeapFacts.

(** ** Running programs *)
Module ExecFacts.
Import Qt.

Lemma after_nil {R : Type} (o : outcome R) : after [] o = o.
Proof. now destruct o. Qed.

Lemma after_app {R : Type} (t1 t2 : list event) (o : outcome R) :
  after (t1 ++ t2) o = after t1 (after t2 o).
Proof. destruct o; cbn; now rewrite ?app_assoc. Qed.

Lemma exec_bind {A B : Type} (p : prog A) (f : A -> prog B) :
  forall st,
    exec (bind p f) st =
    match exec p st with
    | Finished st' tr r => after tr (exec (f r) st')
    | Blocked => Blocked
    | Fault => Fault
    end.
Proof.
  induction p as [r | X a k IH]; intros st; cbn [bind exec].
  - now rewrite after_nil.
  - destruct (perform a st) as [st' tr x | |]; [|reflexivity..].
    rewrite IH.
    destruct (exec (k x) st') as [st'' tr' r | |]; cbn [after];
      [|reflexivity..].
    now rewrite after_app.
Qed.

Lemma unlock_lock (st : state) :
  webClassMutex st = false ->
  set_webClassMutex false (set_webClassMutex true st) = st.
Proof. destruct st; cbn; now intros ->. Qed.

Lemma set_pageLoaded_same (st : state) :
  set_pageLoaded (pageLoaded st) st = st.
Proof. now destruct st. Qed.

End ExecFacts.

(** ** The backend callbacks *)
Module CallbackFacts.
Import Qt App ExecFacts.

Lemma pushNotificationsCallback_run (msg : string) (st : state) :
  exec (pushNotificationsCallback msg) st = ui_callback_run (pushNotify msg) st.
Proof.
  unfold ui_callback_run. cbn -[alive].
  destruct (pageLoaded st); cbn -[alive]; [|reflexivity].
  destruct (webClassMutex st) eqn:Hm; cbn -[alive]; [reflexivity|].
  destruct (webClass st) as [w|]; cbn -[alive].
  - destruct (alive (objects st) w); cbn; [|reflexivity].
    now rewrite unlock_lock.
  - now rewrite unlock_lock.
Qed.

Lemma responseCallback_run (queryID : Z) (msg : string) (st : state) :
  exec (responseCallback queryID msg) st
  = ui_callback_run (gotResponse queryID msg) st.
Proof.
  unfold ui_callback_run. cbn -[alive].
  destruct (pageLoaded st); cbn -[alive]; [|reflexivity].
  destruct (webClassMutex st) eqn:Hm; cbn -[alive]; [reflexivity|].
  destruct (webClass st) as [w|]; cbn -[alive].
  - destruct (alive (objects st) w); cbn; [|reflexivity].
    now rewrite unlock_lock.
  - now rewrite unlock_lock.
Qed.

Lemma ui_callback_delivers_only_when_loaded_and_live (m : method) (st : state) :
  existsb ui_delivery (trace_of (ui_callback_run m st)) = true ->
  pageLoaded st = true /\
  exists w, webClass st = Some w /\ alive (objects st) w = true.
Proof.
  unfold ui_callback_run.
  destruct (pageLoaded st); cbn; [|discriminate].
  destruct (webClassMutex st); cbn; [discriminate|].
  destruct (webClass st) as [w|]; cbn; [|discriminate].
  destruct (alive (objects st) w) eqn:Ha; cbn; [|discriminate].
  intros _. split; [reflexivity|]. now exists w.
Qed.

(** X10. A callback that finds the page loaded, the mutex free and the
    [WebClass] in place emits the signal once. *)
Lemma delivered_when_loaded_and_live (queryID : Z) (msg : string)
    (st : state) (w : qobject) :
  pageLoaded st = true ->
  webClassMutex st = false ->
  webClass st = Some w ->
  alive (objects st) w = true ->
  exec (pushNotificationsCallback msg) st
    = Finished st [ELock; ECall w (pushNotify msg); EUnlock] tt /\
  exec (responseCallback queryID msg) st
    = Finished st [ELock; ECall w (gotResponse queryID msg); EUnlock] tt.
Proof.
  intros Hl Hm Hw Ha.
  rewrite pushNotificationsCallback_run, responseCallback_run.
  unfold ui_callback_run. now rewrite Hl, Hm, Hw, Ha.
Qed.

(** Once [webClass] is null the UI-bound callbacks emit nothing. *)
Lemma nothing_delivered_without_webClass (queryID : Z) (msg : string)
    (st : state) :
  webClass st = None ->
  filter ui_delivery (trace_of (exec (pushNotificationsCallback msg) st)) = [] /\
  filter ui_delivery (trace_of (exec (responseCallback queryID msg) st)) = [] /\
  exec (pushNotificationsCallback msg) st <> Fault /\
  exec (responseCallback queryID msg) st <> Fault.
Proof.
  intros Hw.
  rewrite pushNotificationsCallback_run, responseCallback_run.
  unfold ui_callback_run. rewrite Hw.
  destruct (pageLoaded st), (webClassMutex st); cbn;
    repeat split; discriminate.
Qed.

(** A callback that runs undisturbed while [pageLoaded] is false returns
    at once, emits no signal and leaves every global as it was, so that
    nothing is delivered when the page finishes loading afterwards.  An
    undisturbed callback emits a signal only if it finds [pageLoaded]
    true and [webClass] pointing to a live object. *)
Theorem dropped_while_page_not_loaded (st : state) (queryID : Z)
    (msg : string) :
  pageLoaded st = false ->
  exec (pushNotificationsCallback msg) st = Finished st [] tt /\
  exec (responseCallback queryID msg) st = Finished st [] tt /\
  exec (pushNotificationsCallback msg ;; responseCallback queryID msg ;;
        loadFinished true) st
    = Finished (set_pageLoaded true st) [EStorePageLoaded true] tt /\
  (forall st0,
      existsb ui_delivery
        (trace_of (exec (pushNotificationsCallback msg) st0)) = true ->
      pageLoaded st0 = true /\
      exists w, webClass st0 = Some w /\ alive (objects st0) w = true) /\
  (forall st0,
      existsb ui_delivery
        (trace_of (exec (responseCallback queryID msg) st0)) = true ->
      pageLoaded st0 = true /\
      exists w, webClass st0 = Some w /\ alive (objects st0) w = true).
Proof.
  intros Hl.
  assert (Hpush : exec (pushNotificationsCallback msg) st = Finished st [] tt).
  { rewrite pushNotificationsCallback_run. unfold ui_callback_run.
    now rewrite Hl. }
  assert (Hresp : exec (responseCallback queryID msg) st = Finished st [] tt).
  { rewrite responseCallback_run. unfold ui_callback_run. now rewrite Hl. }
  split; [exact Hpush|]. split; [exact Hresp|]. split; [|split].
  - rewrite exec_bind, Hpush. cbn [after app].
    rewrite after_nil, exec_bind, Hresp. reflexivity.
  - intros st0 Hd. rewrite pushNotificationsCallback_run in Hd.
    now apply ui_callback_delivers_only_when_loaded_and_live in Hd.
  - intros st0 Hd. rewrite responseCallback_run in Hd.
    now apply ui_callback_delivers_only_when_loaded_and_live in Hd.
Qed.

Lemma dropped_before_first_load :
  pageLoaded (running "en-US") = false /\
  exec (pushNotificationsCallback "{}") (running "en-US")
    = Finished (running "en-US") [] tt /\
  exec (responseCallback 7 "{}") (running "en-US")
    = Finished (running "en-US") [] tt.
Proof.
  assert (Hl : pageLoaded (running "en-US") = false)
    by (vm_compute; reflexivity).
  split; [exact Hl|].
  destruct (dropped_while_page_not_loaded (running "en-US") 7 "{}" Hl)
    as (H1 & H2 & _).
  split; assumption.
Defined.

End CallbackFacts.

(** ** Tray notifications *)
Module NotifyFacts.
Import Qt App ExecFacts.

Lemma notifyUserCallback_run (msg : string) (st : state) :
  exec (notifyUserCallback msg) st =
  match trayIcon st with
  | None => Finished st [] tt
  | Some t =>
      if alive (objects st) t
      then Finished st
             [ECall t (invokeMethod "showMessage" QueuedConnection
                         [APPNAME; msg])] tt
      else Fault
  end.
Proof.
  cbn -[alive]. destruct (trayIcon st) as [t|]; cbn -[alive]; [|reflexivity].
  now destruct (alive (objects st) t).
Qed.

(** [notifyUserCallback] neither reads [pageLoaded] nor takes
    [webClassMutex]: whatever their values, what it does depends on
    [trayIcon] and the object behind it alone. *)
Theorem notifyUser_not_gated_by_pageLoaded (st : state) (msg : string)
    (loaded locked : bool) :
  let st' := set_webClassMutex locked (set_pageLoaded loaded st) in
  exec (notifyUserCallback msg) st' <> Blocked /\
  exec (notifyUserCallback msg) st' =
  match trayIcon st with
  | None => Finished st' [] tt
  | Some t =>
      if alive (objects st) t
      then Finished st'
             [ECall t (invokeMethod "showMessage" QueuedConnection
                         ["BitBoxApp"; msg])] tt
      else Fault
  end.
Proof.
  intros st'. rewrite notifyUserCallback_run. subst st'. cbn -[alive].
  destruct (trayIcon st) as [t|]; [|split; [discriminate | reflexivity]].
  destruct (alive (objects st) t); split; (discriminate || reflexivity).
Qed.

Example notifyUser_while_loading :
  exec (notifyUserCallback "Device connected") (running "en-US")
  = Finished (running "en-US")
      [ECall obj_trayIcon
         (invokeMethod "showMessage" QueuedConnection
            ["BitBoxApp"; "Device connected"])] tt.
Proof. vm_compute. reflexivity. Qed.

Lemma main_show_posts_nothing (preferredLocale : string) :
  filter tray_delivery
    (trace_of (exec (main_serve preferredLocale ;; main_show) at_serve)) = [].
Proof. vm_compute. reflexivity. Qed.

(** C10. While [trayIcon] is null, [notifyUserCallback] returns at once:
    nothing is posted and no global changes, so the message is lost for
    good, also when the tray icon is created later.  [trayIcon] is null
    from program start until [main] has created the tray icon, which it
    does after the call of [serve]. *)
Theorem notifyUser_dropped_without_trayIcon (st : state) (msg : string) :
  trayIcon st = None ->
  exec (notifyUserCallback msg) st = Finished st [] tt /\
  trayIcon static_init = None /\
  trayIcon at_serve = None /\
  (forall preferredLocale,
      trayIcon (running preferredLocale) = Some obj_trayIcon /\
      filter tray_delivery
        (trace_of (exec (main_serve preferredLocale ;;
                         notifyUserCallback msg ;; main_show) at_serve))
      = []).
Proof.
  intros Hti. rewrite notifyUserCallback_run, Hti.
  split; [reflexivity|].
  vm_compute. repeat split.
Qed.

Lemma notifyUser_dropped_at_serve :
  trayIcon at_serve = None /\
  exec (notifyUserCallback "Device connected") at_serve
  = Finished at_serve [] tt.
Proof.
  assert (Hti : trayIcon at_serve = None) by (vm_compute; reflexivity).
  split; [exact Hti|].
  exact (proj1 (notifyUser_dropped_without_trayIcon at_serve
                  "Device connected" Hti)).
Defined.

(** C2, tray notification.  The [aboutToQuit] handler destroys the tray
    icon together with its parent [view] and leaves [trayIcon] pointing to
    it.  A [notifyUserCallback] that runs afterwards passes the null test
    and calls [invokeMethod] on the destroyed object.  The two UI-bound
    callbacks find [webClass] null and emit nothing. *)
Theorem notifyUser_after_aboutToQuit (preferredLocale msg : string)
    (queryID : Z) (loaded : bool) :
  let st := state_of (exec aboutToQuit
                        (set_pageLoaded loaded (running preferredLocale))) in
  webClass st = None /\
  filter ui_delivery (trace_of (exec (pushNotificationsCallback msg) st)) = [] /\
  filter ui_delivery (trace_of (exec (responseCallback queryID msg) st)) = [] /\
  trayIcon st = Some obj_trayIcon /\
  alive (objects st) obj_trayIcon = false /\
  exec (notifyUserCallback msg) st = Fault.
Proof.
  destruct loaded; vm_compute; repeat split.
Qed.

End NotifyFacts.

(** ** Page load state and teardown *)
Module LifecycleFacts.
Import Qt App ExecFacts HeapFacts.

Lemma loadFinished_run (ok : bool) (st : state) :
  exec (loadFinished ok) st
  = Finished (set_pageLoaded ok st) [EStorePageLoaded ok] tt.
Proof. reflexivity. Qed.

(** C8 as stated fails: a load that finishes unsuccessfully after a
    successful one puts [pageLoaded] back to false, and the next
    successful one makes it true a second time, all on the same view. *)
Lemma pageLoaded_returns_to_false :
  pageLoaded_history [true; false; true] at_serve = [false; true; false; true]
  /\ changes false (pageLoaded_history [true; false; true] at_serve) = 2
  /\ changes true (pageLoaded_history [true; false; true] at_serve) = 1.
Proof. vm_compute. repeat split. Qed.

(** C8, amended. [pageLoaded] is false when the view is created, and after
    every [loadFinished(ok)] signal it is [ok]: the history of its values
    is the list of the signals' arguments.  The handler changes no other
    global. *)
Theorem pageLoaded_follows_loadFinished (signals : list bool) (st : state) :
  pageLoaded static_init = false /\
  pageLoaded at_serve = false /\
  pageLoaded_history signals st = pageLoaded st :: signals /\
  (forall ok,
      exec (loadFinished ok) st
      = Finished (set_pageLoaded ok st) [EStorePageLoaded ok] tt).
Proof.
  split; [reflexivity|]. split; [vm_compute; reflexivity|].
  split; [|intros; apply loadFinished_run].
  revert st. induction signals as [|ok signals IH]; intros st.
  - reflexivity.
  - cbn [pageLoaded_history]. rewrite loadFinished_run.
    cbn [state_of]. rewrite IH. reflexivity.
Qed.

(** The trace of the [aboutToQuit] handler. *)
Lemma aboutToQuit_run (st : state) (w v : qobject) :
  webClassMutex st = false ->
  webClass st = Some w ->
  alive (objects st) w = true ->
  view st = Some v ->
  alive (destroy (objects st) w) v = true ->
  exec aboutToQuit st =
  Finished
    (store Var.view None
       (set_objects (destroy (destroy (objects st) w) v)
          (store Var.webClass None st)))
    [ELock; EExternal (channel_deregisterObject (Some w));
     EDelete w; EStore Var.webClass None;
     EDelete v; EStore Var.view None; EUnlock;
     EExternal workerThread_quit; EExternal workerThread_wait] tt.
Proof.
  intros Hm Hw Haw Hv Hav.
  cbn -[alive destroy]. rewrite Hm. cbn -[alive destroy].
  rewrite Hw. cbn -[alive destroy]. rewrite Haw. cbn -[alive destroy].
  rewrite Hv. cbn -[alive destroy]. rewrite Hav. cbn -[alive destroy].
  destruct st; cbn in *. subst. reflexivity.
Qed.

(** C6 as stated fails: the view is deleted before the worker thread is
    told to quit, not after. *)
Lemma aboutToQuit_deletes_view_before_quit :
  teardown_steps obj_view (trace_of (exec aboutToQuit (running "en-US")))
  <> [DeregisterChannel; ClearLiveness; StopWorker; ReleaseSurface; JoinWorker].
Proof. vm_compute. discriminate. Qed.

(** C6, amended. The [aboutToQuit] handler locks [webClassMutex],
    deregisters [webClass] from the web channel, deletes it and sets
    [webClass] to null, deletes the view and sets [view] to null, unlocks,
    and then tells the worker thread to quit and waits for it.  Of the
    five steps the release of the view is the third and the quit request
    the fourth; the first three happen under the lock. *)
Theorem aboutToQuit_steps (st : state) (w v : qobject) :
  webClassMutex st = false ->
  webClass st = Some w ->
  alive (objects st) w = true ->
  view st = Some v ->
  alive (destroy (objects st) w) v = true ->
  exists st',
    exec aboutToQuit st =
    Finished st'
      [ELock; EExternal (channel_deregisterObject (Some w));
       EDelete w; EStore Var.webClass None;
       EDelete v; EStore Var.view None; EUnlock;
       EExternal workerThread_quit; EExternal workerThread_wait] tt /\
    teardown_steps v (trace_of (exec aboutToQuit st))
    = [DeregisterChannel; ClearLiveness; ReleaseSurface; StopWorker; JoinWorker] /\
    teardown_steps v (under_lock false (trace_of (exec aboutToQuit st)))
    = [DeregisterChannel; ClearLiveness; ReleaseSurface] /\
    webClass st' = None /\ view st' = None /\ webClassMutex st' = false /\
    alive (objects st') w = false /\ alive (objects st') v = false.
Proof.
  intros Hm Hw Haw Hv Hav.
  rewrite (aboutToQuit_run st w v Hm Hw Haw Hv Hav).
  eexists. split; [reflexivity|].
  assert (Hwv : qobject_eqb w v = false).
  { destruct (qobject_eqb w v) eqn:E; [|reflexivity].
    apply qobject_eqb_eq in E. subst w.
    now rewrite destroyed_not_alive in Hav. }
  cbn [trace_of teardown_steps teardown_step_of under_lock].
  rewrite (qobject_eqb_refl v), Hwv.
  split; [reflexivity|]. split; [reflexivity|].
  destruct st; cbn -[alive destroy] in *.
  split; [reflexivity|]. split; [reflexivity|]. split; [assumption|].
  split.
  - apply not_alive_after_destroy, destroyed_not_alive.
  - apply destroyed_not_alive.
Qed.

Lemma aboutToQuit_steps_running :
  let st := running "en-US" in
  webClassMutex st = false /\
  webClass st = Some obj_webClass /\
  alive (objects st) obj_webClass = true /\
  view st = Some obj_view /\
  alive (destroy (objects st) obj_webClass) obj_view = true /\
  teardown_steps obj_view (trace_of (exec aboutToQuit st))
  = [DeregisterChannel; ClearLiveness; ReleaseSurface; StopWorker; JoinWorker].
Proof.
  intros st.
  assert (H1 : webClassMutex st = false) by (vm_compute; reflexivity).
  assert (H2 : webClass st = Some obj_webClass) by (vm_compute; reflexivity).
  assert (H3 : alive (objects st) obj_webClass = true)
    by (vm_compute; reflexivity).
  assert (H4 : view st = Some obj_view) by (vm_compute; reflexivity).
  assert (H5 : alive (destroy (objects st) obj_webClass) obj_view = true)
    by (vm_compute; reflexivity).
  repeat (split; [assumption|]).
  destruct (aboutToQuit_steps st obj_webClass obj_view H1 H2 H3 H4 H5)
    as (st' & _ & Hsteps & _).
  exact Hsteps.
Defined.

End LifecycleFacts.

(** ** Messages from secondary instances *)
Module InstanceFacts.
Import Qt App ExecFacts.

Example forwarded_arguments : forwarded ["app"; "aopp:xyz"] = "app aopp:xyz".
Proof. reflexivity. Qed.

(** C9 as stated fails: the handler of [receivedMessage] does not raise
    the view. *)
Lemma receivedMessage_does_not_raise :
  existsb is_raise
    (trace_of (exec (receivedMessage 1 (forwarded ["app"; "aopp:xyz"]))
                 (running "en-US"))) = false.
Proof. vm_compute. reflexivity. Qed.

(** C9, amended. The handler of [receivedMessage] decodes the payload and
    writes it to the debug output; it touches neither the view nor any
    global.  The view is raised by the handler of another signal,
    [instanceStarted], which carries no payload. *)
Theorem receivedMessage_logs_instanceStarted_raises (st : state) (v : qobject)
    (instanceId : Z) (message : string) :
  view st = Some v ->
  alive (objects st) v = true ->
  exec (receivedMessage instanceId message) st
  = Finished st
      [EExternal (qDebug ["Received args from secondary instance:"; message])]
      tt /\
  exec instanceStarted st = Finished st [ECall v raise] tt.
Proof.
  intros Hv Ha. split; [reflexivity|].
  cbn -[alive]. rewrite Hv. cbn -[alive]. now rewrite Ha.
Qed.

Lemma receivedMessage_logs_instanceStarted_raises_running :
  let st := running "en-US" in
  view st = Some obj_view /\
  alive (objects st) obj_view = true /\
  exec (receivedMessage 1 "app aopp:xyz") st
  = Finished st
      [EExternal (qDebug ["Received args from secondary instance:";
                          "app aopp:xyz"])] tt /\
  exec instanceStarted st = Finished st [ECall obj_view raise] tt.
Proof.
  intros st.
  assert (Hv : view st = Some obj_view) by (vm_compute; reflexivity).
  assert (Ha : alive (objects st) obj_view = true) by (vm_compute; reflexivity).
  split; [exact Hv|]. split; [exact Ha|].
  exact (receivedMessage_logs_instanceStarted_raises st obj_view 1
           "app aopp:xyz" Hv Ha).
Defined.

End InstanceFacts.

(** ** Interleavings *)
Module ThreadFacts.
Import Qt App Threads ExecFacts HeapFacts.

(** A program point stands for the rest of the program: a step of the one
    is a step of the other. *)
Lemma step_prog_code (p : pc) (st : state) :
  step_prog (code p) st =
  match step_pc p st with
  | Finished st' tr p' => Finished st' tr (code p')
  | Blocked => Blocked
  | Fault => Fault
  end.
Proof.
  destruct p; cbn -[alive destroy]; try reflexivity.
  - now destruct (pageLoaded st).
  - now destruct (webClassMutex st).
  - destruct wc as [w|]; cbn -[alive destroy]; [|reflexivity].
    now destruct (alive (objects st) w).
  - now destruct (webClassMutex st).
  - destruct wc as [w|]; cbn -[alive destroy]; [|reflexivity].
    now destruct (alive (objects st) w).
  - destruct v as [v|]; cbn -[alive destroy]; [|reflexivity].
    now destruct (alive (objects st) v).
Qed.

Lemma start_entry (c : call) : start c = code (entry c).
Proof. now destruct c. Qed.

Lemma replace_map {A B : Type} (f : A -> B) (i : nat) (x : A) (l : list A) :
  replace i (f x) (map f l) = map f (replace i x l).
Proof.
  revert i; induction l as [|y l IH]; intros [|i]; cbn; try reflexivity.
  now rewrite IH.
Qed.

Lemma step_code (i : nat) (s : system pc) :
  step step_prog i (system_map code s)
  = option_map (system_map code) (step step_pc i s).
Proof.
  unfold step. cbn [system_map threads globals log].
  rewrite nth_error_map.
  destruct (nth_error (threads s) i) as [p|]; cbn [option_map]; [|reflexivity].
  rewrite step_prog_code.
  destruct (step_pc p (globals s)) as [st' tr p'| |]; cbn; try reflexivity.
  unfold system_map; cbn. now rewrite replace_map.
Qed.

Lemma run_code (schedule : list nat) :
  forall s : system pc,
    run step_prog schedule (system_map code s)
    = option_map (system_map code) (run step_pc schedule s).
Proof.
  induction schedule as [|i schedule IH]; intros s; cbn [run].
  - reflexivity.
  - rewrite step_code.
    destruct (step step_pc i s) as [s'|]; cbn [option_map]; [|reflexivity].
    apply IH.
Qed.


(** *** Mutual exclusion *)

Lemma holders_middle (l1 l2 : list pc) (p : pc) :
  holders (l1 ++ p :: l2)
  = holders l1 + (if holds_lock p then 1 else 0) + holders l2.
Proof.
  unfold holders. rewrite filter_app, length_app. cbn [filter].
  destruct (holds_lock p); cbn [length]; lia.
Qed.

Lemma no_holders (l : list pc) :
  holders l = 0 -> Forall (fun q => holds_lock q = false) l.
Proof.
  unfold holders. induction l as [|q l IH]; cbn [filter]; intros H.
  - constructor.
  - destruct (holds_lock q) eqn:E; [discriminate|].
    constructor; auto.
Qed.

Lemma existsb_middle (f : pc -> bool) (l1 l2 : list pc) (p : pc) :
  existsb f (l1 ++ p :: l2) = existsb f l1 || f p || existsb f l2.
Proof. rewrite existsb_app. cbn [existsb]. now rewrite orb_assoc. Qed.

Lemma existsb_no_holders (f : pc -> bool) (l : list pc) :
  (forall q, f q = true -> holds_lock q = true) ->
  Forall (fun q => holds_lock q = false) l ->
  existsb f l = false.
Proof.
  intros Hf Hl. induction Hl as [|q l Hq _ IH]; cbn [existsb]; [reflexivity|].
  rewrite IH, orb_false_r.
  destruct (f q) eqn:E; [|reflexivity]. apply Hf in E. congruence.
Qed.

Lemma at_Td_store_holds (q : pc) : at_Td_store q = true -> holds_lock q = true.
Proof. now destruct q. Qed.

Lemma at_Td_storev_holds (q : pc) : at_Td_storev q = true -> holds_lock q = true.
Proof. now destruct q. Qed.

Lemma pc_ok_no_lock (st : state) (q : pc) : holds_lock q = false -> pc_ok st q.
Proof. destruct q; cbn; (discriminate || trivial). Qed.

Lemma pc_ok_same_pointers (st st' : state) (q : pc) :
  webClass st' = webClass st -> view st' = view st ->
  pc_ok st q -> pc_ok st' q.
Proof. intros Hw Hv. destruct q; cbn; rewrite ?Hw, ?Hv; trivial. Qed.

Lemma Forall_middle {A : Type} (P : A -> Prop) (l1 l2 : list A) (x : A) :
  Forall P (l1 ++ x :: l2) <-> Forall P l1 /\ P x /\ Forall P l2.
Proof. rewrite Forall_app, Forall_cons_iff. reflexivity. Qed.

Lemma nth_error_middle {A : Type} (l : list A) :
  forall i x,
    nth_error l i = Some x ->
    exists l1 l2, l = l1 ++ x :: l2 /\
                  forall y, replace i y l = l1 ++ y :: l2.
Proof.
  induction l as [|a l IH]; intros [|i] x H; cbn in H; try discriminate.
  - injection H as ->. now exists [], l.
  - destruct (IH i x H) as (l1 & l2 & -> & Hr).
    exists (a :: l1), l2. split; [reflexivity|].
    intros y. cbn. now rewrite Hr.
Qed.

Lemma quiet_after_clear_app (t1 t2 : list event) :
  forall cleared,
    quiet_after_clear cleared (t1 ++ t2)
    = quiet_after_clear cleared t1
      && quiet_after_clear (cleared || existsb clears t1) t2.
Proof.
  induction t1 as [|e t1 IH]; intros cleared; cbn [app quiet_after_clear existsb].
  - now rewrite orb_false_r.
  - rewrite IH. now rewrite <- andb_assoc, orb_assoc.
Qed.

(** The thread that holds the lock is the only one between [lock()] and
    [unlock()]. *)
Lemma alone_under_lock (st : state) (l1 l2 : list pc) (p : pc) (tr : list event) :
  invariant st (l1 ++ p :: l2) tr ->
  holds_lock p = true ->
  webClassMutex st = true /\
  Forall (fun q => holds_lock q = false) l1 /\
  Forall (fun q => holds_lock q = false) l2.
Proof.
  intros Inv Hp. pose proof (inv_mutex _ _ _ Inv) as Hm.
  rewrite holders_middle, Hp in Hm.
  destruct (webClassMutex st); [|lia].
  split; [reflexivity|]. split; apply no_holders; lia.
Qed.


(** A step that leaves [webClass], [view] and the heap alone. *)
Lemma inert_step (st st' : state) (l1 l2 : list pc) (p p' : pc)
    (tr ev : list event) :
  invariant st (l1 ++ p :: l2) tr ->
  webClass st' = webClass st ->
  view st' = view st ->
  objects st' = objects st ->
  at_Td_store p' = at_Td_store p ->
  at_Td_storev p' = at_Td_storev p ->
  lock_count (holds_lock p') + lock_count (webClassMutex st)
  = lock_count (holds_lock p) + lock_count (webClassMutex st') ->
  pc_ok st' p' ->
  existsb clears ev = false ->
  quiet_after_clear (existsb clears tr) ev = true ->
  invariant st' (l1 ++ p' :: l2) (tr ++ ev).
Proof.
  intros Inv Hw Hv Ho Hs Hsv Hcount Hok Hclr Hquiet.
  destruct Inv as [Im Iw Iv Ia Ip Iq Ic].
  constructor.
  - rewrite holders_middle in *. unfold lock_count in Hcount.
    destruct (holds_lock p), (holds_lock p'), (webClassMutex st),
      (webClassMutex st'); lia.
  - rewrite existsb_middle, Hs, <- existsb_middle. intros G.
    unfold valid. rewrite Hw, Ho. exact (Iw G).
  - rewrite existsb_middle, Hsv, <- existsb_middle. intros G.
    unfold valid. rewrite Hv, Ho. exact (Iv G).
  - rewrite existsb_middle, Hs, <- existsb_middle. intros G w v.
    rewrite Hw, Hv, Ho. exact (Ia G w v).
  - apply Forall_middle in Ip as (I1 & _ & I2).
    apply Forall_middle. repeat split; [|exact Hok|].
    + eapply Forall_impl; [|exact I1].
      intros q. now apply pc_ok_same_pointers.
    + eapply Forall_impl; [|exact I2].
      intros q. now apply pc_ok_same_pointers.
  - rewrite quiet_after_clear_app, Iq. cbn [andb orb]. exact Hquiet.
  - rewrite existsb_app, Hclr, orb_false_r, Hw. exact Ic.
Qed.

Lemma quiet_silent (cleared : bool) (e : event) :
  ui_delivery e = false -> quiet_after_clear cleared [e] = true.
Proof.
  intros H. cbn. now rewrite H, andb_false_r.
Qed.


Lemma others_not_at (f : pc -> bool) (l1 l2 : list pc) (p : pc) :
  (forall q, f q = true -> holds_lock q = true) ->
  Forall (fun q => holds_lock q = false) l1 ->
  Forall (fun q => holds_lock q = false) l2 ->
  existsb f (l1 ++ p :: l2) = f p.
Proof.
  intros Hf H1 H2.
  now rewrite existsb_middle, !(existsb_no_holders f) by assumption;
    rewrite orb_false_r.
Qed.

Lemma others_pc_ok (st : state) (l : list pc) :
  Forall (fun q => holds_lock q = false) l -> Forall (pc_ok st) l.
Proof.
  intros H. eapply Forall_impl; [|exact H].
  intros q. apply pc_ok_no_lock.
Qed.

Ltac inert :=
  eapply inert_step;
  [ eassumption
  | try first [ reflexivity | exact I | apply quiet_silent; reflexivity ] .. ].

(** Every step keeps the invariant, and no step faults. *)
Lemma step_pc_safe (st : state) (l1 l2 : list pc) (p : pc) (tr : list event) :
  invariant st (l1 ++ p :: l2) tr ->
  match step_pc p st with
  | Finished st' ev p' => invariant st' (l1 ++ p' :: l2) (tr ++ ev)
  | Blocked => True
  | Fault => False
  end.
Proof.
  intros Inv.
  pose proof (inv_pcs _ _ _ Inv) as Hp.
  apply Forall_middle in Hp as (_ & Hp & _).
  destruct p; cbn -[alive destroy] in *.
  - (* Cb_start *)
    destruct (pageLoaded st); cbn; inert.
  - (* Cb_lock *)
    destruct (webClassMutex st) eqn:Hm; cbn; [exact I|].
    inert. cbn. now rewrite Hm.
  - (* Cb_load *)
    inert.
  - (* Cb_call *)
    destruct (alone_under_lock _ _ _ _ _ Inv eq_refl) as (Hm & H1 & H2).
    destruct wc as [w|]; cbn -[alive destroy].
    + assert (Hv : valid st (webClass st)).
      { apply (inv_webClass _ _ _ Inv).
        now rewrite (others_not_at _ _ _ _ at_Td_store_holds H1 H2). }
      rewrite <- Hp in Hv. cbn -[alive] in Hv. rewrite Hv.
      assert (Hc : existsb clears tr = false).
      { destruct (existsb clears tr) eqn:E; [|reflexivity].
        apply (inv_cleared _ _ _ Inv) in E. congruence. }
      inert; try (now destruct m).
      now rewrite Hc.
    + inert. cbn. now rewrite Hm.
  - (* Cb_unlock *)
    destruct (alone_under_lock _ _ _ _ _ Inv eq_refl) as (Hm & H1 & H2).
    inert. cbn. now rewrite Hm.
  - (* Lf *)
    inert.
  - (* Td_lock *)
    destruct (webClassMutex st) eqn:Hm; cbn; [exact I|].
    inert. cbn. now rewrite Hm.
  - (* Td_load1 *)
    inert.
  - (* Td_dereg *)
    inert.
  - (* Td_load2 *)
    inert.
  - (* Td_delete *)
    destruct (alone_under_lock _ _ _ _ _ Inv eq_refl) as (Hm & H1 & H2).
    assert (G : existsb at_Td_store (l1 ++ Td_delete wc :: l2) = false)
      by now rewrite (others_not_at _ _ _ _ at_Td_store_holds H1 H2).
    assert (Gv : existsb at_Td_storev (l1 ++ Td_delete wc :: l2) = false)
      by now rewrite (others_not_at _ _ _ _ at_Td_storev_holds H1 H2).
    pose proof (inv_webClass _ _ _ Inv G) as Hw.
    pose proof (inv_view _ _ _ Inv Gv) as Hv.
    pose proof (inv_apart _ _ _ Inv G) as Ha.
    destruct Inv as [Im _ _ _ _ Iq Ic].
    rewrite <- Hp in Hw.
    assert (Hstore : existsb at_Td_store (l1 ++ Td_store :: l2) = true)
      by (rewrite existsb_middle; cbn; now rewrite orb_true_r).
    destruct wc as [w|]; cbn -[alive destroy] in *.
    + rewrite Hw.
      constructor; cbn -[alive destroy].
      * now rewrite holders_middle in *.
      * congruence.
      * intros _. destruct (view st) as [v|]; cbn -[alive destroy]; [|exact I].
        now apply Ha.
      * congruence.
      * apply Forall_middle.
        repeat split; [now apply others_pc_ok | now apply others_pc_ok].
      * rewrite quiet_after_clear_app, Iq. now apply quiet_silent.
      * rewrite existsb_app. cbn. now rewrite orb_false_r.
    + constructor; cbn -[alive destroy].
      * now rewrite holders_middle in *.
      * congruence.
      * intros _. exact Hv.
      * congruence.
      * apply Forall_middle.
        repeat split; [now apply others_pc_ok | now apply others_pc_ok].
      * now rewrite app_nil_r.
      * now rewrite app_nil_r.
  - (* Td_store *)
    destruct (alone_under_lock _ _ _ _ _ Inv eq_refl) as (Hm & H1 & H2).
    assert (Gv : existsb at_Td_storev (l1 ++ Td_store :: l2) = false)
      by now rewrite (others_not_at _ _ _ _ at_Td_storev_holds H1 H2).
    pose proof (inv_view _ _ _ Inv Gv) as Hv.
    destruct Inv as [Im _ _ _ _ Iq Ic].
    constructor; cbn -[alive destroy].
    + now rewrite holders_middle in *.
    + intros _. exact I.
    + intros _. exact Hv.
    + discriminate.
    + apply Forall_middle.
      repeat split; [now apply others_pc_ok | now apply others_pc_ok].
    + rewrite quiet_after_clear_app, Iq. now apply quiet_silent.
    + reflexivity.
  - (* Td_loadv *)
    inert. now split.
  - (* Td_deletev *)
    destruct Hp as [Hp Hnull].
    destruct (alone_under_lock _ _ _ _ _ Inv eq_refl) as (Hm & H1 & H2).
    assert (Gv : existsb at_Td_storev (l1 ++ Td_deletev v :: l2) = false)
      by now rewrite (others_not_at _ _ _ _ at_Td_storev_holds H1 H2).
    pose proof (inv_view _ _ _ Inv Gv) as Hv.
    destruct Inv as [Im _ _ _ _ Iq Ic].
    rewrite <- Hp in Hv.
    assert (Hstorev : existsb at_Td_storev (l1 ++ Td_storev :: l2) = true)
      by (rewrite existsb_middle; cbn; now rewrite orb_true_r).
    destruct v as [o|]; cbn -[alive destroy] in *.
    + rewrite Hv.
      constructor; cbn -[alive destroy].
      * now rewrite holders_middle in *.
      * now rewrite Hnull.
      * congruence.
      * congruence.
      * apply Forall_middle.
        repeat split;
          [now apply others_pc_ok | assumption | now apply others_pc_ok].
      * rewrite quiet_after_clear_app, Iq. now apply quiet_silent.
      * intros _. exact Hnull.
    + constructor; cbn -[alive destroy].
      * now rewrite holders_middle in *.
      * now rewrite Hnull.
      * congruence.
      * congruence.
      * apply Forall_middle.
        repeat split;
          [now apply others_pc_ok | assumption | now apply others_pc_ok].
      * now rewrite app_nil_r.
      * intros _. exact Hnull.
  - (* Td_storev *)
    destruct (alone_under_lock _ _ _ _ _ Inv eq_refl) as (Hm & H1 & H2).
    destruct Inv as [Im _ _ _ _ Iq Ic].
    constructor; cbn -[alive destroy].
    + now rewrite holders_middle in *.
    + now rewrite Hp.
    + intros _. exact I.
    + congruence.
    + apply Forall_middle.
      repeat split; [now apply others_pc_ok | now apply others_pc_ok].
    + rewrite quiet_after_clear_app, Iq. now apply quiet_silent.
    + intros _. exact Hp.
  - (* Td_unlock *)
    destruct (alone_under_lock _ _ _ _ _ Inv eq_refl) as (Hm & H1 & H2).
    inert. cbn. now rewrite Hm.
  - (* Td_quit *)
    inert.
  - (* Td_wait *)
    inert.
  - (* Done *)
    inert.
Qed.


(** A thread that is scheduled alone does what [exec] says. *)
Lemma run_alone (p : prog unit) :
  forall st st' tr r log0,
    exec p st = Finished st' tr r ->
    exists n,
      run step_prog (repeat 0 n) (mkSystem st [p] log0)
      = Some (mkSystem st' [Ret r] (log0 ++ tr)).
Proof.
  induction p as [r0 | X a k IH]; intros st st' tr r log0 Hexec.
  - cbn in Hexec. injection Hexec as <- <- <-.
    exists 0. cbn. now rewrite app_nil_r.
  - cbn [exec] in Hexec.
    destruct (perform a st) as [st1 t1 x| |] eqn:Ha; try discriminate.
    destruct (exec (k x) st1) as [st2 t2 r2| |] eqn:Hk; try discriminate.
    cbn [after] in Hexec. injection Hexec as <- <- <-.
    destruct (IH x st1 st2 t2 r2 (log0 ++ t1) Hk) as (n & Hn).
    exists (S n). cbn [repeat run step nth_error threads globals step_prog].
    rewrite Ha. cbn [replace log]. rewrite Hn. now rewrite app_assoc.
Qed.

Lemma step_invariant (i : nat) (s : system pc) :
  invariant (globals s) (threads s) (log s) ->
  exists s', step step_pc i s = Some s' /\
             invariant (globals s') (threads s') (log s').
Proof.
  intros Inv. unfold step.
  destruct (nth_error (threads s) i) as [p|] eqn:E; [|now exists s].
  destruct (nth_error_middle _ _ _ E) as (l1 & l2 & Hl & Hr).
  rewrite Hl in Inv. pose proof (step_pc_safe _ _ _ _ _ Inv) as Hstep.
  destruct (step_pc p (globals s)) as [st' ev p'| |].
  - eexists. split; [reflexivity|]. cbn. now rewrite Hr.
  - exists s. split; [reflexivity|]. now rewrite Hl.
  - contradiction.
Qed.

Lemma run_invariant (schedule : list nat) :
  forall s : system pc,
    invariant (globals s) (threads s) (log s) ->
    exists s', run step_pc schedule s = Some s' /\
               invariant (globals s') (threads s') (log s').
Proof.
  induction schedule as [|i schedule IH]; intros s Inv; cbn [run].
  - now exists s.
  - destruct (step_invariant i s Inv) as (s1 & -> & Inv1).
    apply IH, Inv1.
Qed.

Lemma entry_no_lock (calls : list call) :
  Forall (fun q => holds_lock q = false) (map entry calls).
Proof.
  induction calls as [|c calls IH]; cbn; constructor; [now destruct c | exact IH].
Qed.

Lemma holders_none (l : list pc) :
  Forall (fun q => holds_lock q = false) l -> holders l = 0.
Proof.
  unfold holders. induction 1 as [|q l Hq _ IH]; cbn [filter]; [reflexivity|].
  now rewrite Hq.
Qed.

Lemma invariant_at_start (st : state) (calls : list call) :
  webClassMutex st = false ->
  valid st (webClass st) ->
  valid st (view st) ->
  (forall w v, webClass st = Some w -> view st = Some v ->
               alive (destroy (objects st) w) v = true) ->
  invariant st (map entry calls) [].
Proof.
  intros Hm Hw Hv Ha. constructor; auto.
  - rewrite Hm. apply holders_none, entry_no_lock.
  - apply others_pc_ok, entry_no_lock.
  - discriminate.
Qed.

(** X5. Whatever the backend calls ([pushNotificationsCallback],
    [responseCallback]) and whatever the main thread handles
    ([loadFinished], [aboutToQuit]) in the meantime, and however their
    atomic actions interleave: no thread ever uses a null pointer or a
    destroyed object, and no [WebClass] signal is emitted once [webClass]
    has been set to null. *)
Theorem ui_callbacks_safe_in_every_interleaving (st : state)
    (calls : list call) (schedule : list nat) :
  webClassMutex st = false ->
  valid st (webClass st) ->
  valid st (view st) ->
  (forall w v, webClass st = Some w -> view st = Some v ->
               alive (destroy (objects st) w) v = true) ->
  exists s,
    run step_prog schedule (mkSystem st (map start calls) []) = Some s /\
    quiet_after_clear false (log s) = true.
Proof.
  intros Hm Hw Hv Ha.
  pose proof (invariant_at_start st calls Hm Hw Hv Ha) as Inv.
  destruct (run_invariant schedule (mkSystem st (map entry calls) []) Inv)
    as (s' & Hrun & Inv').
  exists (system_map code s'). split.
  - replace (map start calls) with (map code (map entry calls)).
    + change (mkSystem st (map code (map entry calls)) [])
        with (system_map code (mkSystem st (map entry calls) [])).
      now rewrite run_code, Hrun.
    + rewrite map_map. apply map_ext. intros c. symmetry. apply start_entry.
  - exact (inv_quiet _ _ _ Inv').
Qed.

Lemma ui_callbacks_safe_while_quitting :
  exists s,
    run step_prog [1; 0; 0; 0; 1; 0; 0; 0; 0; 0; 0; 0; 1; 2; 1; 2; 1; 1; 0; 0]
      (mkSystem (set_pageLoaded true (running "en-US"))
         (map start [call_aboutToQuit; call_response 7 "{}";
                     call_pushNotifications "{}"]) [])
    = Some s /\
    quiet_after_clear false (log s) = true.
Proof.
  apply ui_callbacks_safe_in_every_interleaving; vm_compute; try reflexivity.
  intros w v [= <-] [= <-]. reflexivity.
Defined.

(** [notifyUserCallback] takes no lock: between its null test and its use
    of [trayIcon] the main thread can destroy the tray icon. *)
Lemma notifyUser_races_with_aboutToQuit :
  run step_prog [1; 0; 0; 0; 0; 0; 0; 0; 0; 1]
    (mkSystem (running "en-US") [aboutToQuit; notifyUserCallback "x"] [])
  = None.
Proof. vm_compute. reflexivity. Qed.

End ThreadFacts.

(** ** More on the interceptor *)
Module InterceptFacts.
Import Policy.

(** X2. On the onramp page a request that is not a top-level navigation
    (its URL differs from its first-party URL) proceeds untouched, and
    for no request at all is anything written to [std::cerr] or [Block]
    returned there. *)
Theorem buy_page_subresources_allowed (currentUrl : string)
    (requested firstParty : QUrl) :
  onBuyPage currentUrl = true ->
  (toString firstParty <> toString requested ->
   interceptRequest enforcing currentUrl (incoming requested firstParty)
     = (incoming requested firstParty, [])) /\
  decide enforcing currentUrl requested firstParty <> Block /\
  filter is_cerr (side_effects enforcing currentUrl requested firstParty) = [].
Proof.
  intros Hbuy. unfold decide, side_effects.
  rewrite PolicyFacts.interceptRequest_cases. unfold enforcing. rewrite Hbuy.
  destruct (local_scheme requested).
  - repeat split; discriminate.
  - destruct (String.eqb_spec (toString firstParty) (toString requested)) as [E|E];
      cbn; repeat split; try discriminate.
    intros Hne. now elim Hne.
Qed.

Lemma buy_page_subresources_allowed_example :
  let req := mkQUrl "https" "https://buy.moonpay.com/widget.js" in
  let fp := mkQUrl "qrc" "qrc:/buy/moonpay" in
  onBuyPage "qrc:/buy/moonpay" = true /\
  toString fp <> toString req /\
  interceptRequest enforcing "qrc:/buy/moonpay" (incoming req fp)
    = (incoming req fp, []).
Proof.
  intros req fp.
  assert (Hbuy : onBuyPage "qrc:/buy/moonpay" = true) by reflexivity.
  assert (Hne : toString fp <> toString req) by discriminate.
  split; [exact Hbuy|]. split; [exact Hne|].
  exact (proj1 (buy_page_subresources_allowed "qrc:/buy/moonpay" req fp Hbuy) Hne).
Defined.

(** X3. Whatever the build, the current page and the request info handed in:
    the interceptor changes neither URL, never takes a block back, does
    at most one thing besides, and that concerns the requested URL; a
    request that came in unblocked leaves blocked exactly when the
    interceptor either opened it externally or logged it. *)
Theorem interceptRequest_reports_every_block (allow_all : bool)
    (currentUrl : string) (info : QWebEngineUrlRequestInfo) :
  let info' := fst (interceptRequest allow_all currentUrl info) in
  let effects := snd (interceptRequest allow_all currentUrl info) in
  requestUrl info' = requestUrl info /\
  firstPartyUrl info' = firstPartyUrl info /\
  (blocked info = true -> blocked info' = true) /\
  (blocked info = false -> (blocked info' = true <-> effects <> [])) /\
  List.length effects <= 1 /\
  (forall e, In e effects ->
             e = systemOpen (toString (requestUrl info)) \/
             e = cerr ("Blocked: " ++ toString (requestUrl info))).
Proof.
  unfold interceptRequest.
  destruct allow_all;
    [|destruct (_ || _);
      [|destruct (onBuyPage currentUrl); [destruct (String.eqb _ _)|]]];
    cbn; repeat split; auto; try lia; try congruence; try tauto;
    try discriminate.
  all: intros e [<-|[]]; auto.
Qed.

End InterceptFacts.

(** ** The context menu *)
Module ContextMenuFacts.
Import ContextMenu.

Section Page.

Variable action : WebAction -> QAction.
Variable isSeparator : QAction -> bool.
Variable isVisible : QAction -> bool.

Lemma removeAction_filter (a : QAction) (f : QAction -> bool)
    (menu : list QAction) :
  f a = false ->
  filter f (removeAction a menu) = filter f menu.
Proof.
  intros Hfa. unfold removeAction.
  induction menu as [|b menu IH]; cbn; [reflexivity|].
  destruct (Nat.eqb_spec b a) as [->|Hne]; cbn.
  - now rewrite Hfa.
  - now rewrite IH.
Qed.

Lemma removeAction_In (a b : QAction) (menu : list QAction) :
  In b (removeAction a menu) <-> In b menu /\ b <> a.
Proof.
  unfold removeAction. rewrite filter_In, negb_true_iff, Nat.eqb_neq.
  reflexivity.
Qed.

(** Pruning keeps the whitelisted actions of the menu as they are. *)
Lemma prune_keeps_whitelisted (actions : list QAction) :
  forall menu,
    filter (find (whitelist action)) (prune action actions menu) = filter (find (whitelist action)) menu.
Proof.
  induction actions as [|a actions IH]; intros menu; cbn [ContextMenu.prune].
  - reflexivity.
  - rewrite IH. destruct (find (whitelist action) a) eqn:E; [reflexivity|].
    now apply removeAction_filter.
Qed.

(** An action outside the whitelist that the loop gets to is gone. *)
Lemma prune_removes_others (actions : list QAction) :
  forall menu b,
    In b (prune action actions menu) -> In b menu /\ (In b actions -> find (whitelist action) b = true).
Proof.
  induction actions as [|a actions IH]; intros menu b Hin; cbn [ContextMenu.prune] in Hin.
  - split; [exact Hin | intros []].
  - apply IH in Hin as [Hin Hrest].
    destruct (find (whitelist action) a) eqn:E.
    + split; [exact Hin|]. intros [<-|H]; auto.
    + apply removeAction_In in Hin as [Hin Hne]. split; [exact Hin|].
      intros [->|H]; [now elim Hne | auto].
Qed.

Lemma filter_all {A : Type} (f : A -> bool) (l : list A) :
  (forall x, In x l -> f x = true) -> filter f l = l.
Proof.
  induction l as [|x l IH]; intros H; cbn; [reflexivity|].
  rewrite (H x (or_introl eq_refl)), IH; [reflexivity|].
  intros y Hy. apply H. now right.
Qed.

Lemma find_whitelist (a : QAction) :
  find (whitelist action) a = true <->
  exists w, In w [Cut; Copy; Paste; Undo; Redo; SelectAll; Unselect]
            /\ a = action w.
Proof.
  unfold find, whitelist. rewrite existsb_exists. split.
  - intros (b & Hin & Hb). apply Nat.eqb_eq in Hb. subst b.
    cbn in Hin.
    repeat (destruct Hin as [<-|Hin]; [eexists; split; [|reflexivity]; cbn; tauto|]).
    destruct Hin.
  - intros (w & Hin & ->). exists (action w). split; [|apply Nat.eqb_refl].
    cbn in Hin |- *.
    repeat (destruct Hin as [<-|Hin]; [tauto|]). destruct Hin.
Qed.

(** X4. The menu that [contextMenuEvent] ends with is the standard context
    menu restricted to the whitelist, in the same order: each of its
    actions is [page()->action(w)] for one of the seven editing actions
    [w], and no whitelisted action of the standard menu is lost.  It is
    popped up, at the position of the event, exactly when one of its
    actions is visible and not a separator. *)
Theorem contextMenuEvent_whitelist (standard : list QAction)
    (globalPos : Z * Z) :
  let menu := fst (contextMenuEvent action isSeparator isVisible standard globalPos) in
  let popup := snd (contextMenuEvent action isSeparator isVisible standard globalPos) in
  menu = filter (find (whitelist action)) standard /\
  (forall a, In a menu ->
             exists w, In w [Cut; Copy; Paste; Undo; Redo; SelectAll; Unselect]
                       /\ a = action w) /\
  (popup = Some globalPos <->
   exists a, In a standard /\ find (whitelist action) a = true /\
             isSeparator a = false /\ isVisible a = true) /\
  (popup = None \/ popup = Some globalPos).
Proof.
  cbn [contextMenuEvent fst snd].
  assert (Hmenu : prune action standard standard = filter (find (whitelist action)) standard).
  { rewrite <- (prune_keeps_whitelisted standard standard).
    symmetry. apply filter_all. intros b Hb.
    now apply prune_removes_others in Hb as [Hin ->]. }
  rewrite Hmenu. split; [reflexivity|]. split; [|split].
  - intros a Ha. apply filter_In in Ha as [_ Ha]. now apply find_whitelist.
  - destruct (isEmpty isSeparator isVisible (filter (find (whitelist action)) standard)) eqn:E;
      cbn [negb].
    + split; [discriminate|]. intros (a & Hin & Hw & Hs & Hv). exfalso.
      unfold isEmpty in E. rewrite forallb_forall in E.
      specialize (E a). rewrite filter_In, Hs, Hv in E.
      discriminate E. now split.
    + split; [intros _|reflexivity].
      unfold isEmpty in E.
      assert (Hex : existsb (fun a => negb (isSeparator a || negb (isVisible a)))
                      (filter (find (whitelist action)) standard) = true).
      { clear Hmenu. induction (filter (find (whitelist action)) standard) as [|a l IH];
          cbn in *; [discriminate|].
        destruct (isSeparator a || negb (isVisible a)); cbn in *; auto. }
      apply existsb_exists in Hex as (a & Hin & Ha).
      apply filter_In in Hin as [Hin Hw].
      apply negb_true_iff, orb_false_iff in Ha as [Hs Hv].
      apply negb_false_iff in Hv. now exists a.
  - destruct (negb _); auto.
Qed.

End Page.

(** A standard menu of Back, Reload, a separator, Copy and View Source
    shows Copy alone. *)
Example contextMenuEvent_copy_only :
  let action := fun w => match w with
                         | Cut => 10 | Copy => 11 | Paste => 12 | Undo => 13
                         | Redo => 14 | SelectAll => 15 | Unselect => 16
                         | OtherWebAction n => 100 + n
                         end in
  contextMenuEvent action (Nat.eqb 1) (fun _ => true) [100; 103; 1; 11; 116]
    (40, 50)%Z
  = ([11], Some (40, 50)%Z).
Proof. reflexivity. Qed.

End ContextMenuFacts.

(** ** Progress of the threads *)
Module ProgressFacts.
Import Qt App Threads Progress ExecFacts HeapFacts ThreadFacts.

Lemma total_middle (l1 l2 : list pc) (p : pc) :
  total (l1 ++ p :: l2) = total l1 + remaining p + total l2.
Proof.
  unfold total. rewrite map_app, list_sum_app. unfold list_sum. cbn [map fold_right]. lia.
Qed.

Lemma step_middle (st : state) (l1 l2 : list pc) (p : pc) (tr : list event) :
  step step_pc (length l1) (mkSystem st (l1 ++ p :: l2) tr) =
  match step_pc p st with
  | Finished st' ev p' => Some (mkSystem st' (l1 ++ p' :: l2) (tr ++ ev))
  | Blocked => Some (mkSystem st (l1 ++ p :: l2) tr)
  | Fault => None
  end.
Proof.
  unfold step. cbn [threads globals log].
  assert (Hn : nth_error (l1 ++ p :: l2) (length l1) = Some p).
  { rewrite nth_error_app2, Nat.sub_diag by lia. reflexivity. }
  rewrite Hn.
  destruct (step_pc p st) as [st' ev p'| |]; try reflexivity.
  destruct (nth_error_middle _ _ _ Hn) as (k1 & k2 & Hk & Hr).
  f_equal. f_equal.
  assert (Hrep : forall y, replace (length l1) y (l1 ++ p :: l2) = l1 ++ y :: l2).
  { clear. induction l1 as [|a l1 IH]; intros y; cbn; [reflexivity|].
    now rewrite IH. }
  apply Hrep.
Qed.

(** A thread that holds the lock, or finds it free, is not held up, and
    every action brings a thread nearer to its end. *)
Lemma step_pc_advances (p : pc) (st : state) :
  remaining p > 0 ->
  holds_lock p = true \/ webClassMutex st = false ->
  match step_pc p st with
  | Finished _ _ p' => remaining p' < remaining p
  | Blocked => False
  | Fault => True
  end.
Proof.
  intros Hr Hfree.
  destruct p; cbn -[alive destroy] in *; try lia.
  - destruct (pageLoaded st); cbn; lia.
  - destruct Hfree as [Hf|Hf]; [discriminate|]. rewrite Hf. cbn. lia.
  - destruct wc as [w|]; cbn -[alive destroy]; [|lia].
    destruct (alive (objects st) w); cbn; [lia | exact I].
  - destruct Hfree as [Hf|Hf]; [discriminate|]. rewrite Hf. cbn. lia.
  - destruct wc as [w|]; cbn -[alive destroy]; [|lia].
    destruct (alive (objects st) w); cbn; [lia | exact I].
  - destruct v as [v|]; cbn -[alive destroy]; [|lia].
    destruct (alive (objects st) v); cbn; [lia | exact I].
Qed.

Lemma a_holder (l : list pc) :
  holders l = 1 ->
  exists l1 p l2, l = l1 ++ p :: l2 /\ holds_lock p = true.
Proof.
  unfold holders. induction l as [|q l IH]; cbn [filter]; intros H.
  - discriminate.
  - destruct (holds_lock q) eqn:E.
    + now exists [], q, l.
    + destruct (IH H) as (l1 & p & l2 & -> & Hp).
      now exists (q :: l1), p, l2.
Qed.

Lemma a_live_thread (l : list pc) :
  total l > 0 ->
  exists l1 p l2, l = l1 ++ p :: l2 /\ remaining p > 0.
Proof.
  unfold total, list_sum.
  induction l as [|q l IH]; cbn [map fold_right]; intros H.
  - lia.
  - destruct (remaining q) eqn:E.
    + destruct (IH H) as (l1 & p & l2 & -> & Hp).
      now exists (q :: l1), p, l2.
    + exists [], q, l. split; [reflexivity | lia].
Qed.

Lemma holder_has_work (p : pc) : holds_lock p = true -> remaining p > 0.
Proof. destruct p; cbn; intros H; (discriminate H || lia). Qed.

(** Some thread can always take its next step. *)
Lemma some_thread_advances (s : system pc) :
  invariant (globals s) (threads s) (log s) ->
  total (threads s) > 0 ->
  exists i s',
    step step_pc i s = Some s' /\
    invariant (globals s') (threads s') (log s') /\
    total (threads s') < total (threads s).
Proof.
  destruct s as [st pcs tr]. cbn [globals threads log]. intros Inv Hwork.
  assert (Hpick : exists l1 p l2,
             pcs = l1 ++ p :: l2 /\ remaining p > 0 /\
             (holds_lock p = true \/ webClassMutex st = false)).
  { destruct (webClassMutex st) eqn:Hm.
    - pose proof (inv_mutex _ _ _ Inv) as Hh. rewrite Hm in Hh.
      destruct (a_holder pcs Hh) as (l1 & p & l2 & -> & Hp).
      exists l1, p, l2. repeat split; auto. now apply holder_has_work.
    - destruct (a_live_thread pcs Hwork) as (l1 & p & l2 & -> & Hp).
      exists l1, p, l2. auto. }
  destruct Hpick as (l1 & p & l2 & -> & Hrem & Hfree).
  pose proof (step_pc_safe _ _ _ _ _ Inv) as Hsafe.
  pose proof (step_pc_advances p st Hrem Hfree) as Hadv.
  exists (length l1). rewrite step_middle.
  destruct (step_pc p st) as [st' ev p'| |]; try contradiction.
  eexists. split; [reflexivity|]. cbn [globals threads log].
  split; [exact Hsafe|]. rewrite !total_middle. lia.
Qed.

Lemma all_done (l : list pc) : total l = 0 -> Forall (fun p => p = Done) l.
Proof.
  unfold total, list_sum.
  induction l as [|q l IH]; cbn [map fold_right]; intros H; constructor.
  - destruct q; cbn [remaining] in H; (reflexivity || lia).
  - apply IH. lia.
Qed.

Lemma can_finish (n : nat) :
  forall s : system pc,
    total (threads s) <= n ->
    invariant (globals s) (threads s) (log s) ->
    exists schedule s',
      run step_pc schedule s = Some s' /\
      invariant (globals s') (threads s') (log s') /\
      total (threads s') = 0.
Proof.
  induction n as [|n IH]; intros s Hn Inv.
  - exists [], s. split; [reflexivity|]. split; [exact Inv | lia].
  - destruct (Nat.eq_dec (total (threads s)) 0) as [E|E].
    + exists [], s. split; [reflexivity|]. split; [exact Inv | exact E].
    + destruct (some_thread_advances s Inv) as (i & s1 & Hstep & Inv1 & Hlt);
        [lia|].
      destruct (IH s1) as (schedule & s2 & Hrun & Inv2 & Hz); [lia | exact Inv1|].
      exists (i :: schedule), s2. cbn [run]. rewrite Hstep. auto.
Qed.

Lemma run_app {T : Type} (f : T -> state -> outcome T) (s1 s2 : list nat) :
  forall s,
    run f (s1 ++ s2) s =
    match run f s1 s with
    | Some s' => run f s2 s'
    | None => None
    end.
Proof.
  induction s1 as [|i s1 IH]; intros s; cbn [app run]; [reflexivity|].
  destruct (step f i s); [apply IH | reflexivity].
Qed.

(** X6. No deadlock and no lock left behind: however far an interleaving of
    UI-bound callbacks, [loadFinished] and [aboutToQuit] handlers has got,
    it can be continued until every thread has returned, and then
    [webClassMutex] is free. *)
Theorem every_interleaving_can_finish (st : state) (calls : list call)
    (schedule : list nat) :
  webClassMutex st = false ->
  valid st (webClass st) ->
  valid st (view st) ->
  (forall w v, webClass st = Some w -> view st = Some v ->
               alive (destroy (objects st) w) v = true) ->
  exists rest s,
    run step_prog (schedule ++ rest) (mkSystem st (map start calls) [])
    = Some s /\
    forallb returned (threads s) = true /\
    webClassMutex (globals s) = false.
Proof.
  intros Hm Hw Hv Ha.
  pose proof (invariant_at_start st calls Hm Hw Hv Ha) as Inv.
  destruct (run_invariant schedule (mkSystem st (map entry calls) []) Inv)
    as (s1 & Hrun1 & Inv1).
  destruct (can_finish (total (threads s1)) s1 (le_n _) Inv1)
    as (rest & s2 & Hrun2 & Inv2 & Hz).
  exists rest, (system_map code s2). split; [|split].
  - replace (map start calls) with (map code (map entry calls)).
    + change (mkSystem st (map code (map entry calls)) [])
        with (system_map code (mkSystem st (map entry calls) [])).
      now rewrite run_code, run_app, Hrun1, Hrun2.
    + rewrite map_map. apply map_ext. intros c. symmetry. apply start_entry.
  - cbn [system_map threads]. apply all_done in Hz.
    rewrite Forall_forall in Hz. apply forallb_forall. intros t Ht.
    apply in_map_iff in Ht as (p & <- & Hp). now rewrite (Hz p Hp).
  - cbn [system_map globals].
    pose proof (inv_mutex _ _ _ Inv2) as Hh. apply all_done in Hz.
    assert (H0 : holders (threads s2) = 0).
    { apply holders_none. eapply Forall_impl; [|exact Hz]. now intros p ->. }
    rewrite H0 in Hh. now destruct (webClassMutex (globals s2)).
Qed.

Lemma every_interleaving_can_finish_example :
  let st := set_pageLoaded true (running "en-US") in
  webClassMutex st = false /\
  exists rest s,
    run step_prog ([1; 1; 0; 2] ++ rest)
      (mkSystem st (map start [call_aboutToQuit; call_response 7 "{}";
                               call_pushNotifications "{}"]) [])
    = Some s /\
    forallb returned (threads s) = true /\
    webClassMutex (globals s) = false.
Proof.
  intros st.
  assert (Hm : webClassMutex st = false) by (vm_compute; reflexivity).
  split; [exact Hm|].
  apply every_interleaving_can_finish; try exact Hm;
    try (vm_compute; reflexivity).
  intros w v Hw Hv. vm_compute in Hw, Hv.
  injection Hw as <-. injection Hv as <-. vm_compute. reflexivity.
Defined.


(** *** Before the first successful load *)

Lemma step_pc_before_load (p : pc) (st : state) :
  pageLoaded st = false ->
  before_load p = true ->
  match step_pc p st with
  | Finished st' ev p' =>
      pageLoaded st' = false /\ before_load p' = true /\
      existsb ui_delivery ev = false
  | _ => True
  end.
Proof.
  intros Hl Hb.
  destruct p; cbn -[alive destroy] in *; try discriminate; auto.
  - rewrite Hl. cbn. auto.
  - apply negb_true_iff in Hb. subst ok. auto.
  - destruct (webClassMutex st); cbn; auto.
  - destruct wc as [w|]; cbn -[alive destroy]; auto.
    destruct (alive (objects st) w); cbn; auto.
  - destruct v as [v|]; cbn -[alive destroy]; auto.
    destruct (alive (objects st) v); cbn; auto.
Qed.

Lemma forallb_replace {A : Type} (f : A -> bool) (l : list A) :
  forall i x,
    forallb f l = true -> f x = true -> forallb f (replace i x l) = true.
Proof.
  induction l as [|a l IH]; intros [|i] x Hl Hx; cbn in *; auto.
  - apply andb_true_iff in Hl as [_ Hl]. now rewrite Hx.
  - apply andb_true_iff in Hl as [Ha Hl]. rewrite Ha. cbn. now apply IH.
Qed.

Lemma run_before_load (schedule : list nat) :
  forall s s' : system pc,
    run step_pc schedule s = Some s' ->
    pageLoaded (globals s) = false ->
    forallb before_load (threads s) = true ->
    existsb ui_delivery (log s) = false ->
    pageLoaded (globals s') = false /\
    existsb ui_delivery (log s') = false.
Proof.
  induction schedule as [|i schedule IH]; intros s s' Hrun Hl Hb Hq;
    cbn [run] in Hrun.
  - injection Hrun as <-. auto.
  - destruct (step step_pc i s) as [s1|] eqn:Hstep; [|discriminate].
    apply (IH s1 s' Hrun); unfold step in Hstep;
      destruct (nth_error (threads s) i) as [p|] eqn:Hp;
      try (injection Hstep as <-; assumption);
      (assert (Hbp : before_load p = true)
        by (rewrite forallb_forall in Hb; apply Hb;
            eapply nth_error_In; eassumption));
      pose proof (step_pc_before_load p (globals s) Hl Hbp) as Hpc;
      destruct (step_pc p (globals s)) as [st' ev p'| |];
      try discriminate; try (injection Hstep as <-; assumption);
      destruct Hpc as (Hl' & Hb' & Hq'); injection Hstep as <-;
      cbn [globals threads log].
    + exact Hl'.
    + now apply forallb_replace.
    + now rewrite existsb_app, Hq, Hq'.
Qed.

(** X7. As long as no [loadFinished(true)] is handled, no [WebClass] signal is
    emitted, whatever callbacks and handlers run and however they
    interleave. *)
Theorem nothing_delivered_before_first_load (st : state) (calls : list call)
    (schedule : list nat) :
  webClassMutex st = false ->
  valid st (webClass st) ->
  valid st (view st) ->
  (forall w v, webClass st = Some w -> view st = Some v ->
               alive (destroy (objects st) w) v = true) ->
  pageLoaded st = false ->
  existsb sets_loaded calls = false ->
  exists s,
    run step_prog schedule (mkSystem st (map start calls) []) = Some s /\
    existsb ui_delivery (log s) = false /\
    pageLoaded (globals s) = false.
Proof.
  intros Hm Hw Hv Ha Hl Hcalls.
  pose proof (invariant_at_start st calls Hm Hw Hv Ha) as Inv.
  destruct (run_invariant schedule (mkSystem st (map entry calls) []) Inv)
    as (s' & Hrun & _).
  exists (system_map code s').
  assert (Hb : forallb before_load (map entry calls) = true).
  { clear -Hcalls. induction calls as [|c calls IH]; [reflexivity|].
    cbn in Hcalls |- *. apply orb_false_iff in Hcalls as [Hc Hcalls].
    rewrite (IH Hcalls), andb_true_r. destruct c; cbn in *; auto.
    now rewrite Hc. }
  destruct (run_before_load schedule _ _ Hrun Hl Hb eq_refl) as [Hl' Hq'].
  split; [|split; assumption].
  replace (map start calls) with (map code (map entry calls)).
  - change (mkSystem st (map code (map entry calls)) [])
      with (system_map code (mkSystem st (map entry calls) [])).
    now rewrite run_code, Hrun.
  - rewrite map_map. apply map_ext. intros c. symmetry. apply start_entry.
Qed.

Lemma nothing_delivered_before_first_load_example :
  let st := running "en-US" in
  pageLoaded st = false /\
  exists s,
    run step_prog [1; 0; 2; 0; 1; 2; 3; 3; 0]
      (mkSystem st (map start [call_response 7 "{}"; call_loadFinished false;
                               call_pushNotifications "{}"; call_aboutToQuit])
         [])
    = Some s /\
    existsb ui_delivery (log s) = false /\
    pageLoaded (globals s) = false.
Proof.
  intros st.
  assert (Hl : pageLoaded st = false) by (vm_compute; reflexivity).
  split; [exact Hl|].
  apply nothing_delivered_before_first_load; try exact Hl;
    try (vm_compute; reflexivity).
  intros w v Hw Hv. vm_compute in Hw, Hv.
  injection Hw as <-. injection Hv as <-. vm_compute. reflexivity.
Defined.

(** *** Races *)

(** X8. [pageLoaded] is tested before the lock is taken: when [loadFinished(false)]
    is handled between the test and the call, the signal is emitted although
    [pageLoaded] is false by then. *)
Theorem delivered_after_pageLoaded_reset (st : state) (w : qobject)
    (queryID : Z) (msg : string) :
  pageLoaded st = true ->
  webClassMutex st = false ->
  webClass st = Some w ->
  alive (objects st) w = true ->
  run step_prog [0; 1; 0; 0; 0; 0]
    (mkSystem st [responseCallback queryID msg; loadFinished false] [])
  = Some (mkSystem (set_pageLoaded false st) [Ret tt; Ret tt]
            [EStorePageLoaded false; ELock;
             ECall w (gotResponse queryID msg); EUnlock]).
Proof.
  intros Hl Hm Hw Ha.
  cbn -[alive]. rewrite Hl. cbn -[alive]. rewrite Hm. cbn -[alive].
  rewrite Hw. cbn -[alive]. rewrite Ha. cbn.
  destruct st; cbn in *. subst. reflexivity.
Qed.

Lemma delivered_after_pageLoaded_reset_example :
  let st := set_pageLoaded true (running "en-US") in
  pageLoaded st = true /\
  log_of_run (run step_prog [0; 1; 0; 0; 0; 0]
                (mkSystem st [responseCallback 7 "{}"; loadFinished false] []))
  = [EStorePageLoaded false; ELock;
     ECall obj_webClass (gotResponse 7 "{}"); EUnlock].
Proof.
  intros st.
  assert (Hl : pageLoaded st = true) by (vm_compute; reflexivity).
  split; [exact Hl|].
  rewrite (delivered_after_pageLoaded_reset st obj_webClass 7 "{}" Hl);
    vm_compute; reflexivity.
Defined.

(** X9. [notifyUserCallback] takes no lock: when the [aboutToQuit] handler
    deletes the view between the null test and the use of [trayIcon],
    [invokeMethod] is called on the destroyed tray icon. *)
Theorem notifyUser_uses_trayIcon_deleted_meanwhile (preferredLocale msg : string)
    (loaded : bool) :
  run step_prog [1; 0; 0; 0; 0; 0; 0; 0; 0; 1]
    (mkSystem (set_pageLoaded loaded (running preferredLocale))
       [aboutToQuit; notifyUserCallback msg] [])
  = None /\
  exists s,
    run step_prog [1; 0; 0; 0; 0; 0; 0; 0; 0]
      (mkSystem (set_pageLoaded loaded (running preferredLocale))
         [aboutToQuit; notifyUserCallback msg] [])
    = Some s /\
    trayIcon (globals s) = Some obj_trayIcon /\
    alive (objects (globals s)) obj_trayIcon = false.
Proof.
  split.
  - destruct loaded; vm_compute; reflexivity.
  - destruct loaded; vm_compute; eexists; repeat split.
Qed.

End ProgressFacts.

(** ** The gate and the signals *)
Module GateFacts.
Import Qt App Threads Progress ExecFacts CallbackFacts.

Lemma delivered_when_loaded_and_live_running :
  let st := set_pageLoaded true (running "en-US") in
  pageLoaded st = true /\
  webClassMutex st = false /\
  webClass st = Some obj_webClass /\
  alive (objects st) obj_webClass = true /\
  exec (responseCallback 7 "{}") st
  = Finished st [ELock; ECall obj_webClass (gotResponse 7 "{}"); EUnlock] tt.
Proof.
  intros st.
  assert (H1 : pageLoaded st = true) by (vm_compute; reflexivity).
  assert (H2 : webClassMutex st = false) by (vm_compute; reflexivity).
  assert (H3 : webClass st = Some obj_webClass) by (vm_compute; reflexivity).
  assert (H4 : alive (objects st) obj_webClass = true)
    by (vm_compute; reflexivity).
  split; [exact H1|]. split; [exact H2|]. split; [exact H3|].
  split; [exact H4|].
  exact (proj2 (delivered_when_loaded_and_live 7 "{}" st obj_webClass
                  H1 H2 H3 H4)).
Defined.

Lemma last_cons {A : Type} (l : list A) (a d : A) :
  last (a :: l) d = last l a.
Proof.
  revert a d. induction l as [|b l IH]; intros a d; [reflexivity|].
  change (last (a :: b :: l) d) with (last (b :: l) d).
  rewrite (IH b d). symmetry. apply IH.
Qed.

Lemma set_pageLoaded_twice (b c : bool) (st : state) :
  set_pageLoaded b (set_pageLoaded c st) = set_pageLoaded b st.
Proof. reflexivity. Qed.

(** X11. After any sequence of [loadFinished] signals, a response is passed on
    exactly when the last signal said [ok]; with no signal so far, when
    [pageLoaded] was true before.  Earlier signals make no difference. *)
Theorem delivery_follows_last_loadFinished (signals : list bool) :
  forall (st : state) (w : qobject) (queryID : Z) (msg : string),
    webClassMutex st = false ->
    webClass st = Some w ->
    alive (objects st) w = true ->
    exec (loadFinished_all signals ;; responseCallback queryID msg) st
    = Finished (set_pageLoaded (last signals (pageLoaded st)) st)
        (map EStorePageLoaded signals ++
         if last signals (pageLoaded st)
         then [ELock; ECall w (gotResponse queryID msg); EUnlock]
         else []) tt.
Proof.
  induction signals as [|ok signals IH]; intros st w queryID msg Hm Hw Ha.
  - cbn [loadFinished_all bind last map app].
    rewrite responseCallback_run, set_pageLoaded_same.
    unfold ui_callback_run. rewrite Hm, Hw, Ha.
    now destruct (pageLoaded st).
  - rewrite last_cons.
    change (exec (loadFinished_all (ok :: signals) ;;
                  responseCallback queryID msg) st)
      with (after [EStorePageLoaded ok]
              (exec (loadFinished_all signals ;; responseCallback queryID msg)
                 (set_pageLoaded ok st))).
    rewrite (IH (set_pageLoaded ok st) w queryID msg Hm Hw Ha).
    reflexivity.
Qed.

Lemma delivery_follows_last_loadFinished_example :
  let st := running "en-US" in
  webClassMutex st = false /\
  webClass st = Some obj_webClass /\
  alive (objects st) obj_webClass = true /\
  trace_of (exec (loadFinished_all [true; false] ;; responseCallback 7 "{}") st)
  = [EStorePageLoaded true; EStorePageLoaded false] /\
  trace_of (exec (loadFinished_all [false; true] ;; responseCallback 7 "{}") st)
  = [EStorePageLoaded false; EStorePageLoaded true;
     ELock; ECall obj_webClass (gotResponse 7 "{}"); EUnlock].
Proof.
  intros st.
  assert (H2 : webClassMutex st = false) by (vm_compute; reflexivity).
  assert (H3 : webClass st = Some obj_webClass) by (vm_compute; reflexivity).
  assert (H4 : alive (objects st) obj_webClass = true)
    by (vm_compute; reflexivity).
  split; [exact H2|]. split; [exact H3|]. split; [exact H4|].
  split.
  - rewrite (delivery_follows_last_loadFinished [true; false] st obj_webClass
               7 "{}" H2 H3 H4).
    vm_compute. reflexivity.
  - rewrite (delivery_follows_last_loadFinished [false; true] st obj_webClass
               7 "{}" H2 H3 H4).
    vm_compute. reflexivity.
Defined.

End GateFacts.

(** ** A delivery attempt among other threads *)
Module AttemptFacts.
Import Qt App Threads Attempts ExecFacts ThreadFacts.

Lemma nth_error_replace {A : Type} (l : list A) :
  forall i j x,
    nth_error (replace j x l) i =
    if Nat.eqb j i
    then match nth_error l i with Some _ => Some x | None => None end
    else nth_error l i.
Proof.
  induction l as [|a l IH]; intros i j x.
  - destruct i, j; reflexivity || (cbn; now destruct (Nat.eqb _ _)).
  - destruct i, j; cbn; try reflexivity. apply IH.
Qed.

Lemma returned_thread_stays (r : unit) (obs : list (state * list event)) :
  thread_run (Ret r) obs -> obs = [].
Proof. destruct obs as [|[st ev] obs]; [reflexivity | intros []]. Qed.

(** What thread [i] does in a run of the system is a run of its program. *)
Lemma observations_thread_run (i : nat) (schedule : list nat) :
  forall (s : system (prog unit)) (p : prog unit),
    nth_error (threads s) i = Some p ->
    thread_run p (observations i schedule s).
Proof.
  induction schedule as [|j schedule IH]; intros s p Hp; cbn [observations].
  - exact I.
  - destruct (step step_prog j s) as [s'|] eqn:Hstep; [|exact I].
    unfold step in Hstep.
    destruct (Nat.eqb_spec j i) as [->|Hne].
    + rewrite Hp in Hstep |- *.
      destruct p as [r | X a k]; cbn [advance step_prog] in *.
      * injection Hstep as <-. cbn [app]. apply IH.
        cbn [threads]. rewrite nth_error_replace, Nat.eqb_refl. now rewrite Hp.
      * destruct (perform a (globals s)) as [st' ev x| |] eqn:Hperf;
          try discriminate.
        -- injection Hstep as <-. cbn [app thread_run advance].
           rewrite Hperf. split; [reflexivity|]. apply IH.
           cbn [threads]. rewrite nth_error_replace, Nat.eqb_refl.
           now rewrite Hp.
        -- injection Hstep as <-. cbn [app]. now apply IH.
    + cbn [app]. apply IH.
      destruct (nth_error (threads s) j) as [q|]; [|now injection Hstep as <-].
      destruct (step_prog q (globals s)) as [st' ev q'| |]; try discriminate;
        injection Hstep as <-; [|assumption].
      cbn [threads]. rewrite nth_error_replace.
      apply Nat.eqb_neq in Hne. now rewrite Hne.
Qed.


(** A UI-bound callback on its own, whatever the other threads do between
    its actions. *)
Lemma ui_attempt_run (m : method) (obs : list (state * list event)) :
  thread_run (cb_start m) obs ->
  (forall st0 e0 rest,
      obs = (st0, e0) :: rest -> pageLoaded st0 = false ->
      e0 = [] /\ rest = []) /\
  (existsb ui_delivery (events_of obs) = true ->
   exists st0 st1 st2 st3 w rest,
     obs = (st0, []) :: (st1, [ELock]) :: (st2, []) :: (st3, [ECall w m]) :: rest
     /\ pageLoaded st0 = true /\ webClassMutex st1 = false
     /\ webClass st2 = Some w /\ alive (objects st3) w = true).
Proof.
  intros Hrun.
  destruct obs as [|[st0 e0] obs]; [split; [discriminate | discriminate]|].
  cbn -[alive] in Hrun. destruct Hrun as [<- Hrun].
  destruct (pageLoaded st0) eqn:Hl; cbn [negb] in Hrun.
  2:{ apply returned_thread_stays in Hrun. subst obs. split.
      - intros st0' e0' rest [= <- <- <-] _. auto.
      - discriminate. }
  split.
  { intros st0' e0' rest [= <- <- <-] Hl'. congruence. }
  destruct obs as [|[st1 e1] obs]; [discriminate|].
  cbn -[alive] in Hrun.
  destruct (webClassMutex st1) eqn:Hm; [contradiction|].
  cbn -[alive] in Hrun. destruct Hrun as [<- Hrun].
  destruct obs as [|[st2 e2] obs]; [discriminate|].
  cbn -[alive] in Hrun. destruct Hrun as [<- Hrun].
  destruct obs as [|[st3 e3] obs]; [discriminate|].
  destruct (webClass st2) as [w|] eqn:Hw; cbn -[alive] in Hrun.
  - destruct (alive (objects st3) w) eqn:Ha; [|contradiction].
    cbn in Hrun. destruct Hrun as [<- Hrun].
    intros _. exists st0, st1, st2, st3, w, obs. auto.
  - destruct Hrun as [<- Hrun]. apply returned_thread_stays in Hrun.
    subst obs. discriminate.
Qed.

Lemma start_ui_callback (c : call) (m : method) :
  ui_method c = Some m -> start c = cb_start m.
Proof. destruct c; cbn; intros [= <-]; reflexivity. Qed.

(** C1 as stated fails: [responseCallback] finds [pageLoaded] true, the
    main thread handles [loadFinished(false)], and the callback goes on to
    emit [gotResponse] while [pageLoaded] is false. *)
Lemma response_delivered_while_pageLoaded_false :
  match run step_prog [0; 1; 0; 0]
          (mkSystem (set_pageLoaded true (running "en-US"))
             [responseCallback 7 "{}"; loadFinished false] []) with
  | Some s1 =>
      pageLoaded (globals s1) = false /\
      match step step_prog 0 s1 with
      | Some s2 => log s2 = log s1 ++ [ECall obj_webClass (gotResponse 7 "{}")]
      | None => False
      end
  | None => False
  end.
Proof. vm_compute. split; reflexivity. Qed.

(** C1, amended.  Thread [i] of a system is about to run a UI-bound
    callback and the other threads do whatever the schedule lets them.
    If the callback's test finds [pageLoaded] false, this one action is
    all it does: it emits nothing, changes no global and has returned.
    If it ever emits its signal, then its test found [pageLoaded] true,
    it took the lock, found [webClass] non-null under the lock, and the
    object was alive when called; [pageLoaded] is not looked at again
    after the test. *)
Theorem ui_attempt_delivers_only_after_its_test (s : system (prog unit))
    (schedule : list nat) (i : nat) (c : call) (m : method) :
  ui_method c = Some m ->
  nth_error (threads s) i = Some (start c) ->
  (pageLoaded (globals s) = false ->
   exists s',
     step step_prog i s = Some s' /\
     globals s' = globals s /\ log s' = log s /\
     threads s' = replace i (Ret tt) (threads s)) /\
  (forall st0 e0 rest,
      observations i schedule s = (st0, e0) :: rest ->
      pageLoaded st0 = false ->
      e0 = [] /\ rest = []) /\
  (existsb ui_delivery (events_of (observations i schedule s)) = true ->
   exists st0 st1 st2 st3 w rest,
     observations i schedule s
     = (st0, []) :: (st1, [ELock]) :: (st2, []) :: (st3, [ECall w m]) :: rest
     /\ pageLoaded st0 = true /\ webClassMutex st1 = false
     /\ webClass st2 = Some w /\ alive (objects st3) w = true).
Proof.
  intros Hm Hi. rewrite (start_ui_callback c m Hm) in Hi. split.
  - intros Hl. unfold step. rewrite Hi. cbn. rewrite Hl. cbn.
    eexists. split; [reflexivity|]. cbn. now rewrite app_nil_r.
  - apply ui_attempt_run.
    now apply observations_thread_run.
Qed.

Lemma ui_attempt_dropped_while_loading :
  let s := mkSystem (running "en-US")
             [loadFinished true; responseCallback 7 "{}"] [] in
  ui_method (call_response 7 "{}") = Some (gotResponse 7 "{}") /\
  nth_error (threads s) 1 = Some (start (call_response 7 "{}")) /\
  pageLoaded (globals s) = false /\
  exists s',
    step step_prog 1 s = Some s' /\
    globals s' = globals s /\ log s' = log s /\
    threads s' = replace 1 (Ret tt) (threads s).
Proof.
  intros s.
  assert (Hm : ui_method (call_response 7 "{}") = Some (gotResponse 7 "{}"))
    by reflexivity.
  assert (Hi : nth_error (threads s) 1 = Some (start (call_response 7 "{}")))
    by reflexivity.
  assert (Hl : pageLoaded (globals s) = false) by (vm_compute; reflexivity).
  split; [exact Hm|]. split; [exact Hi|]. split; [exact Hl|].
  exact (proj1 (ui_attempt_delivers_only_after_its_test s [1; 0; 1] 1
                  (call_response 7 "{}") (gotResponse 7 "{}") Hm Hi) Hl).
Defined.

End AttemptFacts.

(** ** The tray icon as the target of notifications *)
Module TrayFacts.
Import Qt App Threads Attempts ExecFacts NotifyFacts.




End TrayFacts.
